(** * Block puzzle core: bitboard, pieces, placement engine, solver, state tree

    A shallow embedding of [src/lib/bitboard.ts], [src/lib/pieces.ts],
    [src/lib/game-logic.ts], [src/lib/solver.ts] and [src/lib/state-tree.ts].

    Conventions.
    - A JavaScript [bigint] is a [Z]; [&], [|], [^], [~], [<<], [>>] are
      [Z.land], [Z.lor], [Z.lxor], [Z.lnot], [Z.shiftl], [Z.shiftr] (BigInt
      is two's complement of unbounded width, as [Z] is; a shift by a
      negative amount shifts the other way in both).
    - A JavaScript [number] holding an integer is a [Z].
    - [Map<K, V>] is a [gmap K V]; arrays are lists.
    - A function that can [throw] returns a [Result]. *)

From Stdlib Require Import ZArith Lia Bool.
From stdpp Require Import gmap strings list fin_maps sorting pretty.

Local Open Scope Z_scope.

(** ** Exceptions *)

Inductive Error : Type :=
| InvalidHandIndex (handIndex : Z)
| PieceAlreadyUsed (handIndex : Z)
| PieceIdMismatch (expected : option Z) (got : Z)
| UnknownPieceId (pieceId : Z)
| CannotPlacePiece (pieceId x y : Z)
| Overlap (x y : Z)
| CurrentNodeNotFound (nodeId : string)
| NodeNotFound (nodeId : string)
| CannotDeleteRoot
| CannotDeleteCurrent
| HandMustContain3
| TypeErrorUndefined.

Inductive Result (A : Type) : Type :=
| Ok (a : A)
| Throw (e : Error).
Arguments Ok {A} a.
Arguments Throw {A} e.

Definition bindR {A B : Type} (r : Result A) (k : A → Result B) : Result B :=
  match r with
  | Ok a => k a
  | Throw e => Throw e
  end.

(** [arr[i]] for a JavaScript number [i] holding an integer: [None] is
    [undefined]. *)
Definition js_index {A : Type} (arr : list A) (i : Z) : option A :=
  if 0 <=? i then arr !! Z.to_nat i else None.

(** ** bitboard.ts *)

Module Bitboard.

Definition BOARD_SIZE : Z := 8.
Definition TOTAL_CELLS : Z := 64.

Definition coordToIndex (x y : Z) : Z := y * BOARD_SIZE + x.

(** The two start-up loops that fill [ROW_MASKS] and [COL_MASKS]. *)
Definition rowMask (y : Z) : Z :=
  foldl (λ mask x, Z.lor mask (Z.shiftl 1 (y * BOARD_SIZE + x))) 0 (seqZ 0 BOARD_SIZE).

Definition colMask (x : Z) : Z :=
  foldl (λ mask y, Z.lor mask (Z.shiftl 1 (y * BOARD_SIZE + x))) 0 (seqZ 0 BOARD_SIZE).

Definition ROW_MASKS : list Z := Eval cbv in map rowMask (seqZ 0 BOARD_SIZE).
Definition COL_MASKS : list Z := Eval cbv in map colMask (seqZ 0 BOARD_SIZE).

(** [ROW_MASKS[y]]: every caller in the modelled code passes an index taken
    from the loop [0 .. 7]; outside it the source reads [undefined]. *)
Definition lineMask (tbl : list Z) (i : Z) : Z :=
  if 0 <=? i then default 0 (tbl !! Z.to_nat i) else 0.

Definition isInBounds (x y : Z) : bool :=
  (0 <=? x) && (x <? BOARD_SIZE) && (0 <=? y) && (y <? BOARD_SIZE).

Definition getBit (board x y : Z) : bool :=
  negb (Z.land board (Z.shiftl 1 (coordToIndex x y)) =? 0).

Definition setBit (board x y : Z) : Z :=
  Z.lor board (Z.shiftl 1 (coordToIndex x y)).

Definition clearBit (board x y : Z) : Z :=
  Z.land board (Z.lnot (Z.shiftl 1 (coordToIndex x y))).

Definition toggleBit (board x y : Z) : Z :=
  Z.lxor board (Z.shiftl 1 (coordToIndex x y)).

(** [countBits]: the loop [while (b !== 0n) { count += Number(b & 1n); b >>= 1n }].
    One iteration strips the lowest binary digit, which is one constructor
    of a [positive].  On a negative [bigint] the loop never ends ([b]
    reaches [-1n] and stays there): no result. *)
Fixpoint countBits_pos (p : positive) : Z :=
  match p with
  | xH => 1
  | xO q => countBits_pos q
  | xI q => 1 + countBits_pos q
  end.

Definition countBits (board : Z) : option Z :=
  match board with
  | Z0 => Some 0
  | Zpos p => Some (countBits_pos p)
  | Zneg _ => None
  end.

Definition emptyBoard : Z := 0.
Definition fullBoard : Z := Z.shiftl 1 64 - 1.

Definition isRowFilled (board y : Z) : bool :=
  Z.land board (lineMask ROW_MASKS y) =? lineMask ROW_MASKS y.

Definition isColFilled (board x : Z) : bool :=
  Z.land board (lineMask COL_MASKS x) =? lineMask COL_MASKS x.

Definition getFilledRows (board : Z) : list Z :=
  filter (λ y, isRowFilled board y = true) (seqZ 0 BOARD_SIZE).

Definition getFilledCols (board : Z) : list Z :=
  filter (λ x, isColFilled board x = true) (seqZ 0 BOARD_SIZE).

Definition clearLines (board : Z) (rows cols : list Z) : Z :=
  let clearMask := foldl (λ m y, Z.lor m (lineMask ROW_MASKS y)) 0 rows in
  let clearMask := foldl (λ m x, Z.lor m (lineMask COL_MASKS x)) clearMask cols in
  Z.land board (Z.lnot clearMask).

(** [indexToCoord]: [idx % 8] is the truncated remainder, [Math.floor(idx / 8)]
    the floored quotient. *)
Definition indexToCoord (idx : Z) : Z * Z :=
  (Z.rem idx BOARD_SIZE, idx / BOARD_SIZE).

(** [boardToArray]: [result[y][x]] is 1 or 0. *)
Definition boardToArray (board : Z) : list (list Z) :=
  map (λ y, map (λ x, if getBit board x y then 1 else 0) (seqZ 0 BOARD_SIZE))
    (seqZ 0 BOARD_SIZE).

(** [arrayToBoard]: [arr[y]?.[x]] is truthy when the row and the entry
    exist and the number is not zero. *)
Definition arrayToBoard (arr : list (list Z)) : Z :=
  foldl (λ board y,
    foldl (λ board x,
      match js_index arr y ≫= (λ row, js_index row x) with
      | Some v => if v =? 0 then board else setBit board x y
      | None => board
      end) board (seqZ 0 BOARD_SIZE))
    0 (seqZ 0 BOARD_SIZE).

Definition cellsToMask (cells : list (Z * Z)) : Z :=
  foldl (λ mask c, setBit mask c.1 c.2) 0 cells.

(** A board in the sense of the data model: bits [0 .. 63] only. *)
Definition is_board (b : Z) : Prop := 0 ≤ b < 2 ^ 64.

End Bitboard.

(** ** pieces.ts *)

Module Piece.
Record t : Type := mk {
  id : Z;
  w : Z;
  h : Z;
  cells : list (Z * Z);
  hash : string;
}.
End Piece.

Module Placement.
Record t : Type := mk {
  x : Z;
  y : Z;
  mask : Z;
}.
End Placement.

Module Pieces.
Import Bitboard.

(** The [for (const [dx, dy] of piece.cells)] loop of [pieceMaskAt]. *)
Fixpoint pieceMaskAt_loop (px py : Z) (cells : list (Z * Z)) (mask : Z) : Z :=
  match cells with
  | [] => mask
  | (dx, dy) :: rest =>
      let x := px + dx in
      let y := py + dy in
      if negb (isInBounds x y) then 0
      else pieceMaskAt_loop px py rest (setBit mask x y)
  end.

Definition pieceMaskAt (piece : Piece.t) (px py : Z) : Z :=
  if (px <? 0) || (py <? 0) || (BOARD_SIZE <? px + Piece.w piece)
     || (BOARD_SIZE <? py + Piece.h piece)
  then 0
  else pieceMaskAt_loop px py (Piece.cells piece) 0.

Definition canPlace (board : Z) (piece : Piece.t) (px py : Z) : bool :=
  if (px <? 0) || (py <? 0) || (BOARD_SIZE <? px + Piece.w piece)
     || (BOARD_SIZE <? py + Piece.h piece)
  then false
  else
    let mask := pieceMaskAt piece px py in
    if mask =? 0 then false else Z.land board mask =? 0.

(** The two nested anchor loops of [precomputeAllPlacements], for one
    piece: [py] outer, [px] inner, a placement pushed when the mask is not
    [0n]. *)
Definition placementsOf (piece : Piece.t) : list Placement.t :=
  flat_map (λ py,
    flat_map (λ px,
      let mask := pieceMaskAt piece px py in
      if mask =? 0 then [] else [Placement.mk px py mask])
      (seqZ 0 (BOARD_SIZE - Piece.w piece + 1)))
    (seqZ 0 (BOARD_SIZE - Piece.h piece + 1)).

Definition getPieceCells (piece : Piece.t) (px py : Z) : list (Z * Z) :=
  map (λ c, (px + c.1, py + c.2)) (Piece.cells piece).

Section Catalog.

(** The catalog is loaded from [public/data/pieces.json], which is an asset
    and not code: it is a parameter here. *)
Variable rawPieces : list Piece.t.

Definition PIECES : gmap Z Piece.t :=
  foldl (λ m p, <[Piece.id p := p]> m) ∅ rawPieces.

Definition precomputeAllPlacements : gmap Z (list Placement.t) :=
  map_fold (λ _ piece result, <[Piece.id piece := placementsOf piece]> result)
    ∅ PIECES.

Definition PRECOMPUTED_PLACEMENTS : gmap Z (list Placement.t) :=
  precomputeAllPlacements.

Definition ALL_PIECE_IDS : list Z := map Piece.id rawPieces.

Definition PIECE_BY_HASH : gmap string Z :=
  foldl (λ m p, <[Piece.hash p := Piece.id p]> m) ∅ rawPieces.

Definition getPiece (id : Z) : option Piece.t := PIECES !! id.

Definition matchPieceByHash (hash : string) : option Z := PIECE_BY_HASH !! hash.

(** [getLegalPlacements] of pieces.ts: the anchor loops with [canPlace]. *)
Definition getLegalPlacements (board pieceId : Z) : list Placement.t :=
  match PIECES !! pieceId with
  | None => []
  | Some piece =>
      flat_map (λ py,
        flat_map (λ px,
          if canPlace board piece px py
          then [Placement.mk px py (pieceMaskAt piece px py)]
          else [])
          (seqZ 0 (BOARD_SIZE - Piece.w piece + 1)))
        (seqZ 0 (BOARD_SIZE - Piece.h piece + 1))
  end.

Definition hasLegalPlacement (board pieceId : Z) : bool :=
  match PIECES !! pieceId with
  | None => false
  | Some piece =>
      existsb (λ py,
        existsb (λ px, canPlace board piece px py)
          (seqZ 0 (BOARD_SIZE - Piece.w piece + 1)))
        (seqZ 0 (BOARD_SIZE - Piece.h piece + 1))
  end.

End Catalog.
End Pieces.

(** ** game-logic.ts *)

Module PlacementResult.
Record t : Type := mk {
  newBoard : Z;
  boardBeforeClear : Z;
  clearedRows : list Z;
  clearedCols : list Z;
  cellsCleared : Z;
}.
End PlacementResult.

Module GameLogic.
Import Bitboard Pieces.

Definition placePiece (board pieceMask : Z) : PlacementResult.t :=
  let boardBeforeClear := Z.lor board pieceMask in
  let clearedRows := getFilledRows boardBeforeClear in
  let clearedCols := getFilledCols boardBeforeClear in
  let newBoard := clearLines boardBeforeClear clearedRows clearedCols in
  let cellsCleared :=
    if (0 <? Z.of_nat (length clearedRows)) || (0 <? Z.of_nat (length clearedCols))
    then Z.of_nat (length clearedRows) * BOARD_SIZE
         + Z.of_nat (length clearedCols) * BOARD_SIZE
         - Z.of_nat (length clearedRows) * Z.of_nat (length clearedCols)
    else 0 in
  PlacementResult.mk newBoard boardBeforeClear clearedRows clearedCols cellsCleared.

Section Catalog.
Variable rawPieces : list Piece.t.

Definition computeMobility (board : Z) : Z :=
  map_fold (λ _ placements total,
      foldl (λ total p, if Z.land board (Placement.mask p) =? 0 then total + 1 else total)
        total placements)
    0 (PRECOMPUTED_PLACEMENTS rawPieces).

Definition countLegalPlacements (board pieceId : Z) : Z :=
  match PRECOMPUTED_PLACEMENTS rawPieces !! pieceId with
  | None => 0
  | Some placements =>
      foldl (λ count p, if Z.land board (Placement.mask p) =? 0 then count + 1 else count)
        0 placements
  end.

Definition getLegalPlacementsForPiece (board pieceId : Z) : list Placement.t :=
  match PRECOMPUTED_PLACEMENTS rawPieces !! pieceId with
  | None => []
  | Some precomputed =>
      filter (λ p, Z.land board (Placement.mask p) = 0) precomputed
  end.

Definition canPlaceAnyPiece (board : Z) (hand : list Z) : bool :=
  existsb (λ pieceId,
    match PRECOMPUTED_PLACEMENTS rawPieces !! pieceId with
    | None => false
    | Some placements =>
        existsb (λ p, Z.land board (Placement.mask p) =? 0) placements
    end) hand.

Definition canPlaceAllPieces (board : Z) (hand : list Z) : bool :=
  forallb (λ pieceId,
    match PRECOMPUTED_PLACEMENTS rawPieces !! pieceId with
    | None => false
    | Some placements =>
        existsb (λ p, Z.land board (Placement.mask p) =? 0) placements
    end) hand.

(** [evaluateBoard]: no result when [countBits] has none. *)
Definition evaluateBoard (board : Z) : option Z :=
  let mobility := computeMobility board in
  occupied ← countBits board; Some (mobility * 100 - occupied).

(** [simulatePlacement]: the mask is computed here without the per-cell
    bounds test of [pieceMaskAt]. *)
Definition simulatePlacement (board pieceId x y : Z) : option PlacementResult.t :=
  match PIECES rawPieces !! pieceId with
  | None => None
  | Some piece =>
      if (x <? 0) || (y <? 0) || (BOARD_SIZE <? x + Piece.w piece)
         || (BOARD_SIZE <? y + Piece.h piece)
      then None
      else
        let mask :=
          foldl (λ mask c,
            let cellX := x + c.1 in
            let cellY := y + c.2 in
            let idx := cellY * BOARD_SIZE + cellX in
            Z.lor mask (Z.shiftl 1 idx)) 0 (Piece.cells piece) in
        if negb (Z.land board mask =? 0) then None
        else Some (placePiece board mask)
  end.

End Catalog.

Definition findFilledLines (board : Z) : list Z * list Z :=
  (getFilledRows board, getFilledCols board).

End GameLogic.

(** ** solver.ts *)

Module SolutionStep.
Record t : Type := mk {
  pieceId : Z;
  handIndex : option Z;   (* [handIndices[depth]]; [None] is [undefined] *)
  x : Z;
  y : Z;
  clearedRows : list Z;
  clearedCols : list Z;
  boardAfter : Z;
}.
End SolutionStep.

Module Solution.
Record t : Type := mk {
  steps : list SolutionStep.t;
  finalBoard : Z;
  mobility : Z;
  order : list (option Z);   (* [None] is [undefined] *)
}.
End Solution.

(** [Array.prototype.sort] with a comparator.  ECMAScript requires the sort
    to be stable, and for a consistent comparator every stable sort yields
    the same array; insertion from the right is one. *)
Fixpoint js_sort_insert {A : Type} (cmp : A → A → Z) (a : A) (sorted : list A) : list A :=
  match sorted with
  | [] => [a]
  | b :: rest =>
      if cmp a b <=? 0 then a :: b :: rest else b :: js_sort_insert cmp a rest
  end.

Definition js_sort {A : Type} (cmp : A → A → Z) (arr : list A) : list A :=
  foldr (js_sort_insert cmp) [] arr.

(** pieces.ts: [computeCanonicalHash].  [numberToString] is the conversion
    a template literal applies to a number. *)
Module PieceHash.

Definition listMin (x : Z) (xs : list Z) : Z := foldl Z.min x xs.

(** [(a, b) => a[0] !== b[0] ? a[0] - b[0] : a[1] - b[1]] *)
Definition cellCompare (a b : Z * Z) : Z :=
  if negb (a.1 =? b.1) then a.1 - b.1 else a.2 - b.2.

Fixpoint join (sep : string) (parts : list string) : string :=
  match parts with
  | [] => EmptyString
  | [s] => s
  | s :: rest => s +:+ sep +:+ join sep rest
  end.

Section Conversion.
Variable numberToString : Z → string.

Definition computeCanonicalHash (cells : list (Z * Z)) : string :=
  match cells with
  | [] => EmptyString
  | c :: rest =>
      let minX := listMin c.1 (map fst rest) in
      let minY := listMin c.2 (map snd rest) in
      let normalized := map (λ c, (c.1 - minX, c.2 - minY)) cells in
      let sorted := js_sort cellCompare normalized in
      join ";" (map (λ c, numberToString c.1 +:+ "," +:+ numberToString c.2) sorted)
  end.

Definition matchPieceByCells (rawPieces : list Piece.t) (cells : list (Z * Z))
    : option Z :=
  Pieces.PIECE_BY_HASH rawPieces !! computeCanonicalHash cells.

End Conversion.
End PieceHash.

Module Solver.
Import Bitboard Pieces GameLogic.

(** The generator [permutations], as the list of what it yields.  [fuel]
    bounds the recursion depth; each call recurs on an array one shorter,
    so [length arr] is enough. *)
Fixpoint permutations_fuel {A : Type} (fuel : nat) (arr : list A) : list (list A) :=
  if (length arr <=? 1)%nat then [arr]
  else
    match fuel with
    | O => []
    | S fuel' =>
        flat_map (λ i,
          match arr !! i with
          | Some a =>
              let rest := take i arr ++ drop (S i) arr in
              map (λ perm, a :: perm) (permutations_fuel fuel' rest)
          | None => []
          end) (seq 0 (length arr))
    end.

Definition permutations {A : Type} (arr : list A) : list (list A) :=
  permutations_fuel (length arr) arr.

(** [order.map((i) => hand[i])]; the indices come from a permutation of
    [0 .. length - 1], so the read is always in range. *)
Definition pick (hand order : list Z) : list Z :=
  map (λ i, default 0 (js_index hand i)) order.

Definition capReached (solutions : list Solution.t) (maxSolutions : Z) : bool :=
  maxSolutions <=? Z.of_nat (length solutions).

Definition DEFAULT_MAX_SOLUTIONS : Z := 200.

Section Catalog.
Variable rawPieces : list Piece.t.

Definition getLegalPlacements (board pieceId : Z) : list Placement.t :=
  match PRECOMPUTED_PLACEMENTS rawPieces !! pieceId with
  | None => []
  | Some precomputed =>
      filter (λ p, Z.land board (Placement.mask p) = 0) precomputed
  end.

Definition mkStep (pieceId : Z) (handIndex : option Z) (p : Placement.t)
    (result : PlacementResult.t) : SolutionStep.t :=
  SolutionStep.mk pieceId handIndex (Placement.x p) (Placement.y p)
    (PlacementResult.clearedRows result) (PlacementResult.clearedCols result)
    (PlacementResult.newBoard result).

(** [dfs], with [rest] the part of [order] from index [depth] on.  An
    entry of [handIndices] may be [undefined] ([None]) when [solvePartial]
    is given fewer hand indices than pieces. *)
Fixpoint dfs_from (board : Z) (rest : list Z) (handIndices : list (option Z))
    (depth : nat) (path : list SolutionStep.t) (earlyExit : bool) {struct rest}
    : option (list SolutionStep.t) :=
  match rest with
  | [] => Some path
  | pieceId :: rest' =>
      let handIndex := handIndices !! depth ≫= id in
      (fix loop (placements : list Placement.t) : option (list SolutionStep.t) :=
         match placements with
         | [] => None
         | p :: more =>
             let result := placePiece board (Placement.mask p) in
             let step := mkStep pieceId handIndex p result in
             match dfs_from (PlacementResult.newBoard result) rest' handIndices
                     (S depth) (path ++ [step]) earlyExit with
             | Some res => Some res
             | None => loop more
             end
         end) (getLegalPlacements board pieceId)
  end.

Definition dfs (board : Z) (order : list Z) (handIndices : list (option Z))
    (depth : nat) (path : list SolutionStep.t) (earlyExit : bool) : option (list SolutionStep.t) :=
  dfs_from board (drop depth order) handIndices depth path earlyExit.

(** The [for (const order of permutations(...))] loop of [solveTriple]. *)
Fixpoint solveTriple_loop (board : Z) (hand : list Z) (orders : list (list Z))
    : Result (option Solution.t) :=
  match orders with
  | [] => Ok None
  | order :: more =>
      let pieceOrder := pick hand order in
      match dfs board pieceOrder (map Some order) 0 [] true with
      | Some steps =>
          match last steps with
          | None => Throw TypeErrorUndefined
          | Some s =>
              let finalBoard := SolutionStep.boardAfter s in
              Ok (Some (Solution.mk steps finalBoard
                          (computeMobility rawPieces finalBoard)
                          (map Some pieceOrder)))
          end
      | None => solveTriple_loop board hand more
      end
  end.

Definition solveTriple (board : Z) (hand : list Z) : Result (option Solution.t) :=
  if negb (length hand =? 3)%nat then Throw HandMustContain3
  else solveTriple_loop board hand (permutations [0; 1; 2]).

(** [dfsAll], the closure of [findAllSolutions]; the captured array
    [solutions] is threaded through.  [rest] is [order] from [depth] on. *)
Fixpoint dfsAll_from (hand : list Z) (maxSolutions : Z) (order handIndices : list Z)
    (solutions : list Solution.t) (currentBoard : Z) (rest : list Z) (depth : nat)
    (path : list SolutionStep.t) {struct rest} : Result (list Solution.t) :=
  if capReached solutions maxSolutions then Ok solutions
  else
    match rest with
    | [] =>
        match last path with
        | None => Throw TypeErrorUndefined
        | Some s =>
            let finalBoard := SolutionStep.boardAfter s in
            Ok (solutions ++
                [Solution.mk path finalBoard (computeMobility rawPieces finalBoard)
                   (map (λ i, js_index handIndices i ≫= js_index hand) order)])
        end
    | pieceId :: rest' =>
        let handIndex := handIndices !! depth in
        (fix loop (placements : list Placement.t) (solutions : list Solution.t)
           : Result (list Solution.t) :=
           match placements with
           | [] => Ok solutions
           | p :: more =>
               if capReached solutions maxSolutions then Ok solutions
               else
                 let result := placePiece currentBoard (Placement.mask p) in
                 let step := mkStep pieceId handIndex p result in
                 match dfsAll_from hand maxSolutions order handIndices solutions
                         (PlacementResult.newBoard result) rest' (S depth)
                         (path ++ [step]) with
                 | Ok solutions' => loop more solutions'
                 | Throw e => Throw e
                 end
           end) (getLegalPlacements currentBoard pieceId) solutions
    end.

Definition dfsAll (hand : list Z) (maxSolutions : Z) (solutions : list Solution.t)
    (currentBoard : Z) (order handIndices : list Z) (depth : nat)
    (path : list SolutionStep.t) : Result (list Solution.t) :=
  dfsAll_from hand maxSolutions order handIndices solutions currentBoard
    (drop depth order) depth path.

(** The [for (const orderIndices of permutations(...))] loop of
    [findAllSolutions], with its [break]. *)
Fixpoint findAllSolutions_loop (board : Z) (hand : list Z) (maxSolutions : Z)
    (orders : list (list Z)) (solutions : list Solution.t) : Result (list Solution.t) :=
  match orders with
  | [] => Ok solutions
  | orderIndices :: more =>
      if capReached solutions maxSolutions then Ok solutions
      else
        let pieceOrder := pick hand orderIndices in
        match dfsAll hand maxSolutions solutions board pieceOrder orderIndices 0 [] with
        | Ok solutions' => findAllSolutions_loop board hand maxSolutions more solutions'
        | Throw e => Throw e
        end
  end.

Definition findAllSolutions (board : Z) (hand : list Z) (maxSolutions : Z)
    : Result (list Solution.t) :=
  if negb (length hand =? 3)%nat then Throw HandMustContain3
  else findAllSolutions_loop board hand maxSolutions (permutations [0; 1; 2]) [].

Definition findBestSolution (board : Z) (hand : list Z) (maxSolutions : Z)
    : Result (option Solution.t) :=
  bindR (findAllSolutions board hand maxSolutions) (λ solutions,
    if (length solutions =? 0)%nat then Ok None
    else
      let sorted :=
        js_sort (λ a b, Solution.mobility b - Solution.mobility a) solutions in
      Ok (head sorted)).

Definition hasSolution (board : Z) (hand : list Z) : Result bool :=
  bindR (solveTriple board hand) (λ r, Ok (bool_decide (r ≠ None))).

(** The permutation loop of [solvePartial]. *)
Fixpoint solvePartial_loop (board : Z) (remainingPieces handIndices : list Z)
    (orders : list (list Z)) : option Solution.t :=
  match orders with
  | [] => None
  | order :: more =>
      let pieceOrder := pick remainingPieces order in
      let mappedIndices := map (λ i, js_index handIndices i) order in
      match dfs board pieceOrder mappedIndices 0 [] true with
      | Some steps =>
          let finalBoard :=
            match last steps with
            | Some s => SolutionStep.boardAfter s
            | None => board
            end in
          Some (Solution.mk steps finalBoard (computeMobility rawPieces finalBoard)
                  (map Some pieceOrder))
      | None => solvePartial_loop board remainingPieces handIndices more
      end
  end.

Definition solvePartial (board : Z) (remainingPieces handIndices : list Z)
    : Result (option Solution.t) :=
  if (length remainingPieces =? 0)%nat
  then Ok (Some (Solution.mk [] board (computeMobility rawPieces board) []))
  else
    let indices := seqZ 0 (Z.of_nat (length remainingPieces)) in
    Ok (solvePartial_loop board remainingPieces handIndices (permutations indices)).

End Catalog.
End Solver.

(** ** state-tree.ts *)

Abbreviation NodeId := string.

Inductive Move : Type :=
| PLACE (pieceId handIndex x y : Z) (clearedRows clearedCols : list Z)
| EDIT_CELL (x y : Z) (wasOccupied : bool)
| SET_HAND (previousHand newHand : list Z).

Module GameNode.
Record t : Type := mk {
  id : NodeId;
  parentId : option NodeId;
  childrenIds : list NodeId;
  board : Z;
  hand : list Z;
  handUsed : list bool;
  lastMove : option Move;
  createdAt : Z;
  note : option string;
}.

Definition with_childrenIds (n : t) (cs : list NodeId) : t :=
  mk (id n) (parentId n) cs (board n) (hand n) (handUsed n) (lastMove n)
     (createdAt n) (note n).
End GameNode.

Module StateTree.
Record t : Type := mk {
  nodes : gmap NodeId GameNode.t;
  currentNodeId : NodeId;
  rootNodeId : NodeId;
}.

Definition with_nodes (tree : t) (m : gmap NodeId GameNode.t) : t :=
  mk m (currentNodeId tree) (rootNodeId tree).

Definition with_currentNodeId (tree : t) (c : NodeId) : t :=
  mk (nodes tree) c (rootNodeId tree).
End StateTree.

(** [arr[i] = v] on a copy of a [boolean[]]: JavaScript extends the array
    when [i] is past its end.  The slots in between are holes, which read
    as [undefined]; the code only tests these entries for truthiness, so
    they are [false] here. *)
Definition js_array_set (arr : list bool) (i : nat) (v : bool) : list bool :=
  if (i <? length arr)%nat then <[i := v]> arr
  else arr ++ replicate (i - length arr) false ++ [v].

Module Tree.
Import Bitboard Pieces GameLogic.

(** [generateNodeId()] and [Date.now()] read the clock and the random
    generator; what they return is an argument ([newNodeId], [now]) of
    every function that calls them. *)

Definition createInitialTree (board : Z) (hand : list Z) (rootId : NodeId) (now : Z)
    : StateTree.t :=
  let rootNode :=
    GameNode.mk rootId None [] board hand (map (λ _, false) hand) None now None in
  StateTree.mk (<[rootId := rootNode]> ∅) rootId rootId.

Definition getCurrentNode (tree : StateTree.t) : Result GameNode.t :=
  match StateTree.nodes tree !! StateTree.currentNodeId tree with
  | None => Throw (CurrentNodeNotFound (StateTree.currentNodeId tree))
  | Some node => Ok node
  end.

Definition getNode (tree : StateTree.t) (nodeId : NodeId) : option GameNode.t :=
  StateTree.nodes tree !! nodeId.

(** The tail shared by the three [apply*Move] functions: copy the node
    map, store the parent with the new child id appended, store the new
    node, move [currentNodeId]. *)
Definition appendChild (tree : StateTree.t) (currentNode newNode : GameNode.t)
    : StateTree.t :=
  let newNodeId := GameNode.id newNode in
  let updatedParent :=
    GameNode.with_childrenIds currentNode
      (GameNode.childrenIds currentNode ++ [newNodeId]) in
  let newNodes := <[GameNode.id currentNode := updatedParent]> (StateTree.nodes tree) in
  let newNodes := <[newNodeId := newNode]> newNodes in
  StateTree.mk newNodes newNodeId (StateTree.rootNodeId tree).

Section Catalog.
Variable rawPieces : list Piece.t.

Definition applyPlaceMove (tree : StateTree.t) (pieceId handIndex x y : Z)
    (newNodeId : NodeId) (now : Z) : Result StateTree.t :=
  bindR (getCurrentNode tree) (λ currentNode,
    if (handIndex <? 0) || (Z.of_nat (length (GameNode.hand currentNode)) <=? handIndex)
    then Throw (InvalidHandIndex handIndex)
    else if default false (js_index (GameNode.handUsed currentNode) handIndex)
    then Throw (PieceAlreadyUsed handIndex)
    else if negb (bool_decide (js_index (GameNode.hand currentNode) handIndex = Some pieceId))
    then Throw (PieceIdMismatch (js_index (GameNode.hand currentNode) handIndex) pieceId)
    else
      match PIECES rawPieces !! pieceId with
      | None => Throw (UnknownPieceId pieceId)
      | Some piece =>
          let mask := pieceMaskAt piece x y in
          if mask =? 0 then Throw (CannotPlacePiece pieceId x y)
          else if negb (Z.land (GameNode.board currentNode) mask =? 0)
          then Throw (Overlap x y)
          else
            let result := placePiece (GameNode.board currentNode) mask in
            let newHandUsed :=
              js_array_set (GameNode.handUsed currentNode) (Z.to_nat handIndex) true in
            let move :=
              PLACE pieceId handIndex x y (PlacementResult.clearedRows result)
                (PlacementResult.clearedCols result) in
            let newNode :=
              GameNode.mk newNodeId (Some (GameNode.id currentNode)) []
                (PlacementResult.newBoard result) (GameNode.hand currentNode)
                newHandUsed (Some move) now None in
            Ok (appendChild tree currentNode newNode)
      end).

End Catalog.

Definition applyEditCellMove (tree : StateTree.t) (x y : Z)
    (newNodeId : NodeId) (now : Z) : Result StateTree.t :=
  bindR (getCurrentNode tree) (λ currentNode,
    let wasOccupied :=
      Z.land (Z.shiftr (GameNode.board currentNode) (y * 8 + x)) 1 =? 1 in
    let newBoard := toggleBit (GameNode.board currentNode) x y in
    let move := EDIT_CELL x y wasOccupied in
    let newNode :=
      GameNode.mk newNodeId (Some (GameNode.id currentNode)) [] newBoard
        (GameNode.hand currentNode) (GameNode.handUsed currentNode)
        (Some move) now None in
    Ok (appendChild tree currentNode newNode)).

Definition applySetHandMove (tree : StateTree.t) (newHand : list Z)
    (newNodeId : NodeId) (now : Z) : Result StateTree.t :=
  bindR (getCurrentNode tree) (λ currentNode,
    let move := SET_HAND (GameNode.hand currentNode) newHand in
    let newNode :=
      GameNode.mk newNodeId (Some (GameNode.id currentNode)) []
        (GameNode.board currentNode) newHand (map (λ _, false) newHand)
        (Some move) now None in
    Ok (appendChild tree currentNode newNode)).

Definition checkout (tree : StateTree.t) (nodeId : NodeId) : Result StateTree.t :=
  match StateTree.nodes tree !! nodeId with
  | None => Throw (NodeNotFound nodeId)
  | Some _ => Ok (StateTree.with_currentNodeId tree nodeId)
  end.

Definition undo (tree : StateTree.t) : Result StateTree.t :=
  bindR (getCurrentNode tree) (λ currentNode,
    match GameNode.parentId currentNode with
    | None => Ok tree
    | Some parentId => checkout tree parentId
    end).

Definition redo (tree : StateTree.t) : Result StateTree.t :=
  bindR (getCurrentNode tree) (λ currentNode,
    match last (GameNode.childrenIds currentNode) with
    | None => Ok tree
    | Some lastChildId => checkout tree lastChildId
    end).

(** The queue loop of [deleteBranch].  It has no visited set, so on a
    child list that loops back it runs for ever: [fuel] bounds the number
    of iterations and [None] says the bound was hit. *)
Fixpoint collectDescendants (fuel : nat) (nodes : gmap NodeId GameNode.t)
    (queue : list NodeId) (toDelete : gset NodeId) : option (gset NodeId) :=
  match queue with
  | [] => Some toDelete
  | id :: queue' =>
      match fuel with
      | O => None
      | S fuel' =>
          let toDelete := {[id]} ∪ toDelete in
          let queue' :=
            match nodes !! id with
            | Some node => queue' ++ GameNode.childrenIds node
            | None => queue'
            end in
          collectDescendants fuel' nodes queue' toDelete
      end
  end.

(** [None]: the queue loop did not finish within [fuel] iterations. *)
Definition deleteBranch (fuel : nat) (tree : StateTree.t) (nodeId : NodeId)
    : option (Result StateTree.t) :=
  if bool_decide (nodeId = StateTree.rootNodeId tree) then Some (Throw CannotDeleteRoot)
  else if bool_decide (nodeId = StateTree.currentNodeId tree)
  then Some (Throw CannotDeleteCurrent)
  else
    match StateTree.nodes tree !! nodeId with
    | None => Some (Ok tree)
    | Some nodeToDelete =>
        match collectDescendants fuel (StateTree.nodes tree) [nodeId] ∅ with
        | None => None
        | Some toDelete =>
            let newNodes :=
              set_fold (λ id m, delete id m) (StateTree.nodes tree) toDelete in
            let newNodes :=
              match GameNode.parentId nodeToDelete with
              | Some parentId =>
                  (* [if (nodeToDelete.parentId)]: the empty string is falsy *)
                  if bool_decide (parentId = EmptyString) then newNodes
                  else
                    match newNodes !! parentId with
                    | Some parent =>
                        let updatedParent :=
                          GameNode.with_childrenIds parent
                            (filter (λ id, id ≠ nodeId) (GameNode.childrenIds parent)) in
                        <[parentId := updatedParent]> newNodes
                    | None => newNodes
                    end
              | None => newNodes
              end in
            Some (Ok (StateTree.with_nodes tree newNodes))
        end
    end.

(** The pattern by which the store (game-store.ts) applies a tree
    operation: [try { const newTree = op(tree); set({ stateTree: newTree }) }
    catch { }].  The store keeps its tree when the operation throws. *)
Definition tryUpdate (stateTree : StateTree.t) (r : Result StateTree.t) : StateTree.t :=
  match r with
  | Ok newTree => newTree
  | Throw _ => stateTree
  end.

End Tree.

(** ** Specification-side notions *)

Module Spec.
Import Bitboard Pieces GameLogic.

(** The number of set bits among the [n] lowest binary digits. *)
Fixpoint popsum (n : nat) (a : Z) : Z :=
  match n with
  | O => 0
  | S k => Z.b2z (Z.odd a) + popsum k (Z.div2 a)
  end.

(** The order the comparator of [computeCanonicalHash] sorts by. *)
Definition cellLe (a b : Z * Z) : Prop := PieceHash.cellCompare a b ≤ 0.

(** [arr[y]?.[x]] is truthy. *)
Definition cellTruthy (arr : list (list Z)) (x y : Z) : bool :=
  match js_index arr y ≫= (λ row, js_index row x) with
  | Some v => negb (v =? 0)
  | None => false
  end.

(** An 8 by 8 array of zeros and ones. *)
Definition grid_8x8 (arr : list (list Z)) : Prop :=
  length arr = 8%nat
  ∧ Forall (λ row, length row = 8%nat ∧ Forall (λ v, v = 0 ∨ v = 1) row) arr.

(** The lines whose bit is set in [r], in increasing order. *)
Definition linesOf (r : Z) : list Z :=
  filter (λ k, Z.testbit r k = true) (seqZ 0 8).

(** The mask [clearLines] removes. *)
Definition clearMask (rows cols : list Z) : Z :=
  foldl (λ m x, Z.lor m (lineMask COL_MASKS x))
    (foldl (λ m y, Z.lor m (lineMask ROW_MASKS y)) 0 rows) cols.

(** The inclusion-exclusion count, checked on one choice of rows and one
    choice of columns. *)
Definition clearMask_count_ok (r c : Z) : bool :=
  bool_decide
    (countBits (clearMask (linesOf r) (linesOf c))
     = Some (8 * Z.of_nat (length (linesOf r)) + 8 * Z.of_nat (length (linesOf c))
             - Z.of_nat (length (linesOf r)) * Z.of_nat (length (linesOf c)))).

(** Occupied-cell offsets inside the [w] by [h] bounding box. *)
Definition cells_in_box (p : Piece.t) : Prop :=
  Forall (λ c, 0 ≤ c.1 < Piece.w p ∧ 0 ≤ c.2 < Piece.h p) (Piece.cells p).

(** The bounding box anchored at [(px, py)] lies on the board. *)
Definition anchor_in_bounds (p : Piece.t) (px py : Z) : Prop :=
  0 ≤ px ∧ 0 ≤ py ∧ px + Piece.w p ≤ BOARD_SIZE ∧ py + Piece.h p ≤ BOARD_SIZE.

(** The shape of a tree built through the API: every node is stored under
    its own id and the checked-out node is in the tree. *)
Definition tree_wf (tree : StateTree.t) : Prop :=
  (∀ k n, StateTree.nodes tree !! k = Some n → GameNode.id n = k)
  ∧ is_Some (StateTree.nodes tree !! StateTree.currentNodeId tree).

(** The shape of the placement loop of [dfs]: the first result that is not
    [null]. *)
Definition first_some {A B : Type} (f : A → option B) (l : list A) : option B :=
  foldr (λ a acc, match f a with Some b => Some b | None => acc end) None l.

(** The shape of the two collecting loops of [findAllSolutions] (over
    placements and over orderings): stop as soon as the cap is reached,
    otherwise let the body extend [solutions]. *)
Fixpoint collect_loop {A : Type} (maxSolutions : Z)
    (body : A → list Solution.t → Result (list Solution.t)) (l : list A)
    (solutions : list Solution.t) : Result (list Solution.t) :=
  match l with
  | [] => Ok solutions
  | a :: more =>
      if Solver.capReached solutions maxSolutions then Ok solutions
      else
        match body a solutions with
        | Ok solutions' => collect_loop maxSolutions body more solutions'
        | Throw e => Throw e
        end
  end.

(** How many more solutions fit under the cap. *)
Definition remaining (maxSolutions : Z) (solutions : list Solution.t) : nat :=
  Z.to_nat (maxSolutions - Z.of_nat (length solutions)).

Section Catalog.
Variable rawPieces : list Piece.t.

(** A complete legal placement sequence for the piece ids [order] from
    [board]: each piece in turn is a catalog piece put at an anchor where
    [canPlace] holds, on the board left by the placements before it. *)
Inductive placeable_seq : Z → list Z → Prop :=
| placeable_nil board : placeable_seq board []
| placeable_cons board pieceId piece x y rest :
    PIECES rawPieces !! pieceId = Some piece →
    canPlace board piece x y = true →
    placeable_seq
      (PlacementResult.newBoard (placePiece board (pieceMaskAt piece x y))) rest →
    placeable_seq board (pieceId :: rest).

(** Some ordering of the hand admits a complete legal placement sequence. *)
Definition solvable (board : Z) (hand : list Z) : Prop :=
  ∃ order, order ≡ₚ hand ∧ placeable_seq board order.

(** Every complete solution below one search node, in depth-first order
    (anchors in the placement table's row-major order), with no cap. *)
Fixpoint enumerate (hand order handIndices : list Z) (board : Z) (rest : list Z)
    (depth : nat) (path : list SolutionStep.t) : list Solution.t :=
  match rest with
  | [] =>
      match last path with
      | None => []
      | Some s =>
          [Solution.mk path (SolutionStep.boardAfter s)
             (computeMobility rawPieces (SolutionStep.boardAfter s))
             (map (λ i, js_index handIndices i ≫= js_index hand) order)]
      end
  | pieceId :: rest' =>
      flat_map (λ p,
        let result := placePiece board (Placement.mask p) in
        enumerate hand order handIndices (PlacementResult.newBoard result) rest'
          (S depth)
          (path ++ [Solver.mkStep pieceId (handIndices !! depth) p result]))
        (Solver.getLegalPlacements rawPieces board pieceId)
  end.

(** Every complete solution, ordering by ordering (the six orderings in
    the order [permutations] yields them), then anchor by anchor. *)
Definition allSolutions (board : Z) (hand : list Z) : list Solution.t :=
  flat_map (λ orderIndices,
    let pieceOrder := Solver.pick hand orderIndices in
    enumerate hand pieceOrder orderIndices board pieceOrder 0 [])
    [[0; 1; 2]; [0; 2; 1]; [1; 0; 2]; [1; 2; 0]; [2; 0; 1]; [2; 1; 0]].

(** One recorded step, redone on [board]: the piece is in the catalog,
    [canPlace] holds at the recorded anchor, and the recorded cleared lines
    and resulting board are what [placePiece] gives. *)
Definition step_ok (board : Z) (s : SolutionStep.t) : bool :=
  match PIECES rawPieces !! SolutionStep.pieceId s with
  | None => false
  | Some piece =>
      let result :=
        placePiece board (pieceMaskAt piece (SolutionStep.x s) (SolutionStep.y s)) in
      canPlace board piece (SolutionStep.x s) (SolutionStep.y s)
      && bool_decide (SolutionStep.clearedRows s = PlacementResult.clearedRows result)
      && bool_decide (SolutionStep.clearedCols s = PlacementResult.clearedCols result)
      && bool_decide (SolutionStep.boardAfter s = PlacementResult.newBoard result)
  end.

(** Redoing a list of steps from [board]: the board reached, when every
    step is legal where it is made. *)
Fixpoint replay (board : Z) (steps : list SolutionStep.t) : option Z :=
  match steps with
  | [] => Some board
  | s :: rest =>
      if step_ok board s then replay (SolutionStep.boardAfter s) rest else None
  end.

(** The board after the last of [steps], or [board] when there is none. *)
Definition finalOf (board : Z) (steps : list SolutionStep.t) : Z :=
  default board (SolutionStep.boardAfter <$> last steps).

(** A solution for the pieces [pieces] held in the hand slots [slots]:
    its steps can be redone from [board] and end on its final board, its
    mobility is that of the final board, and the steps take the pieces in
    some order, each with the slot it comes from. *)
Definition valid_solution (board : Z) (pieces slots : list Z) (sol : Solution.t)
    : Prop :=
  replay board (Solution.steps sol) = Some (Solution.finalBoard sol)
  ∧ Solution.mobility sol = computeMobility rawPieces (Solution.finalBoard sol)
  ∧ ∃ o, o ≡ₚ seqZ 0 (Z.of_nat (length pieces))
         ∧ map SolutionStep.pieceId (Solution.steps sol) = Solver.pick pieces o
         ∧ map SolutionStep.handIndex (Solution.steps sol)
           = map (λ i, js_index slots i) o.

(** [s] is the first solution of maximum mobility in [l]. *)
Definition first_max_mobility (l : list Solution.t) (s : Solution.t) : Prop :=
  ∃ i, l !! i = Some s
       ∧ (∀ j s', l !! j = Some s' → Solution.mobility s' ≤ Solution.mobility s)
       ∧ (∀ j s', l !! j = Some s' → (j < i)%nat →
            Solution.mobility s' < Solution.mobility s).

End Catalog.

End Spec.

(** ** Example data *)

Module Examples.
Import Tree.

(** The single-cell piece of scenarios A and B, and a catalog holding it
    and a horizontal domino. *)
Definition single : Piece.t := Piece.mk 1 1 1 [(0, 0)] "0,0".
Definition domino : Piece.t := Piece.mk 2 2 1 [(0, 0); (1, 0)] "0,0;1,0".
Definition catalog : list Piece.t := [single; domino].

(** root, then two cell edits: root -> a -> b, with b checked out. *)
Definition tree0 : StateTree.t := createInitialTree 0 [1; 1; 2] "root" 0.
Definition tree1 : StateTree.t := tryUpdate tree0 (applyEditCellMove tree0 0 0 "a" 1).
Definition tree2 : StateTree.t := tryUpdate tree1 (applyEditCellMove tree1 1 0 "b" 2).

End Examples.

(** * Properties *)

Module BitboardFacts.
Import Bitboard Spec.

Lemma popsum_nonneg n a : 0 ≤ popsum n a.
Proof.
  revert a. induction n as [|n IH]; intros a; simpl; [lia|].
  specialize (IH (Z.div2 a)). destruct (Z.odd a); simpl; lia.
Qed.

Lemma countBits_pos_popsum n p :
  Z.pos p < 2 ^ Z.of_nat n → countBits_pos p = popsum n (Z.pos p).
Proof.
  revert p. induction n as [|n IH]; intros p Hp.
  - simpl in Hp. lia.
  - rewrite Nat2Z.inj_succ, Z.pow_succ_r in Hp by lia.
    destruct p as [q|q|]; cbn [countBits_pos popsum Z.odd Z.div2 Z.b2z].
    + cbn [Pos.div2]. rewrite (IH q) by lia. reflexivity.
    + cbn [Pos.div2]. rewrite (IH q) by lia. lia.
    + clear. assert (H : ∀ k, popsum k 0 = 0) by (induction k; simpl; auto).
      rewrite H. reflexivity.
Qed.

Lemma countBits_popsum n a :
  0 ≤ a < 2 ^ Z.of_nat n → countBits a = Some (popsum n a).
Proof.
  intros [H0 Hn]. destruct a as [|p|p]; [|simpl; f_equal; by apply countBits_pos_popsum|lia].
  simpl. f_equal. clear. revert n. induction n; simpl; auto.
Qed.

Lemma popsum_mono n a b :
  (∀ i, 0 ≤ i → Z.testbit a i = true → Z.testbit b i = true) →
  popsum n a ≤ popsum n b.
Proof.
  revert a b. induction n as [|n IH]; intros a b Hab; simpl; [lia|].
  assert (Z.b2z (Z.odd a) ≤ Z.b2z (Z.odd b)).
  { rewrite <- !Z.bit0_odd. specialize (Hab 0 ltac:(lia)).
    destruct (Z.testbit a 0); [rewrite Hab by done|destruct (Z.testbit b 0)]; simpl; lia. }
  assert (popsum n (Z.div2 a) ≤ popsum n (Z.div2 b)); [|lia].
  apply IH. intros i Hi. rewrite !Z.div2_spec, !Z.shiftr_spec by lia. apply Hab. lia.
Qed.

Lemma popsum_set_bit n a k :
  0 ≤ k < Z.of_nat n → Z.testbit a k = false →
  popsum n (Z.lor a (Z.shiftl 1 k)) = popsum n a + 1.
Proof.
  revert a k. induction n as [|n IH]; intros a k Hk Ha; [lia|].
  cbn [popsum]. destruct (decide (k = 0)) as [->|Hne].
  - change (Z.shiftl 1 0) with 1.
    rewrite <- !Z.bit0_odd, Z.lor_spec, Ha. change (Z.testbit 1 0) with true.
    replace (Z.div2 (Z.lor a 1)) with (Z.div2 a); [simpl; lia|].
    apply Z.bits_inj'. intros i Hi.
    rewrite !Z.div2_spec, !Z.shiftr_spec, Z.lor_spec by lia.
    replace (Z.testbit 1 (i + 1)) with false; [by rewrite orb_false_r|].
    symmetry. apply (Z.bits_above_log2 1); simpl; lia.
  - replace (Z.div2 (Z.lor a (Z.shiftl 1 k)))
      with (Z.lor (Z.div2 a) (Z.shiftl 1 (k - 1))).
    + rewrite IH; [| lia | rewrite Z.div2_spec, Z.shiftr_spec by lia;
                          by replace (k - 1 + 1) with k by lia].
      rewrite <- !Z.bit0_odd, Z.lor_spec, Z.shiftl_spec by lia.
      rewrite (Z.testbit_neg_r 1 (0 - k)) by lia. rewrite orb_false_r. lia.
    + apply Z.bits_inj'. intros i Hi.
      rewrite !Z.div2_spec, Z.lor_spec, !Z.shiftr_spec, Z.lor_spec, !Z.shiftl_spec by lia.
      by replace (i + 1 - k) with (i - (k - 1)) by lia.
Qed.

Lemma is_board_bits a :
  is_board a ↔ 0 ≤ a ∧ ∀ i, 64 ≤ i → Z.testbit a i = false.
Proof.
  unfold is_board. split.
  - intros [H0 H]. split; [done|]. intros i Hi.
    destruct (decide (a = 0)) as [->|]; [apply Z.bits_0|].
    apply Z.bits_above_log2; [done|].
    assert (Z.log2 a < 64); [apply Z.log2_lt_pow2; lia | lia].
  - intros [H0 H]. split; [done|].
    destruct (decide (a = 0)) as [->|]; [lia|].
    apply Z.log2_lt_pow2; [lia|].
    destruct (Z_lt_le_dec (Z.log2 a) 64) as [|Hge]; [done|].
    specialize (H (Z.log2 a) Hge). rewrite Z.bit_log2 in H by lia. done.
Qed.

Lemma testbit_shiftl_1 k i : 0 ≤ k → Z.testbit (Z.shiftl 1 k) i = bool_decide (i = k).
Proof.
  intros Hk. destruct (Z_lt_le_dec i 0).
  { rewrite Z.testbit_neg_r by lia. symmetry. apply bool_decide_eq_false. lia. }
  rewrite Z.shiftl_spec by lia. case_bool_decide as H.
  - subst. by rewrite Z.sub_diag.
  - destruct (Z_lt_le_dec (i - k) 0); [by apply Z.testbit_neg_r|].
    apply (Z.bits_above_log2 1); simpl; lia.
Qed.

End BitboardFacts.

Module PlacementFacts.
Import Bitboard Pieces GameLogic Spec BitboardFacts.

Lemma clearLines_bits board rows cols i :
  Z.testbit (clearLines board rows cols) i = true → Z.testbit board i = true.
Proof.
  unfold clearLines. rewrite Z.land_spec. by intros [? _]%andb_true_iff.
Qed.

Lemma is_board_subset a b :
  is_board b → 0 ≤ a → (∀ i, Z.testbit a i = true → Z.testbit b i = true) → is_board a.
Proof.
  intros [_ Hb]%is_board_bits Ha Hsub. apply is_board_bits. split; [done|].
  intros i Hi. destruct (Z.testbit a i) eqn:E; [|done].
  apply Hsub in E. by rewrite Hb in E.
Qed.

Lemma is_board_lor a b : is_board a → is_board b → is_board (Z.lor a b).
Proof.
  intros [Ha0 Ha]%is_board_bits [Hb0 Hb]%is_board_bits. apply is_board_bits. split.
  - by apply Z.lor_nonneg.
  - intros i Hi. by rewrite Z.lor_spec, Ha, Hb.
Qed.

Lemma is_board_testbit a i : is_board a → Z.testbit a i = true → 0 ≤ i < 64.
Proof.
  intros [_ Ha]%is_board_bits Hi.
  destruct (Z_lt_le_dec i 0); [by rewrite Z.testbit_neg_r in Hi|].
  destruct (Z_lt_le_dec i 64); [lia|]. by rewrite Ha in Hi.
Qed.

(** C2. [placePiece] reports [cellsCleared] by inclusion-exclusion,
    8 * rows + 8 * columns - rows * columns, for every board and mask; and
    in scenario B (row 0 set except column 7, a single-cell piece placed at
    (7, 0)) row 0 is the one line cleared, 8 cells are cleared and the new
    board has row 0 empty. *)
Theorem placePiece_cellsCleared :
  (∀ b m : Z,
     let r := placePiece b m in
     let rows := Z.of_nat (length (PlacementResult.clearedRows r)) in
     let cols := Z.of_nat (length (PlacementResult.clearedCols r)) in
     PlacementResult.cellsCleared r = 8 * rows + 8 * cols - rows * cols)
  ∧ (let single := Piece.mk 1 1 1 [(0, 0)] "0,0" in
     let r := placePiece 127 (pieceMaskAt single 7 0) in
     PlacementResult.clearedRows r = [0]
     ∧ PlacementResult.clearedCols r = []
     ∧ PlacementResult.cellsCleared r = 8
     ∧ PlacementResult.boardBeforeClear r = 255
     ∧ PlacementResult.newBoard r = 0
     ∧ Z.land (PlacementResult.newBoard r) (lineMask ROW_MASKS 0) = 0).
Proof.
  split.
  - intros b m. cbn zeta. unfold placePiece. cbn [PlacementResult.cellsCleared
      PlacementResult.clearedRows PlacementResult.clearedCols].
    change BOARD_SIZE with 8.
    destruct (0 <? _) eqn:E1;
      destruct (0 <? Z.of_nat (length (getFilledCols _))) eqn:E2; cbn [orb]; lia.
  - vm_compute. repeat split.
Qed.

(** C5. For boards [b] and masks [m] confined to bits 0..63, the board
    after clearing that [placePiece b m] returns has no bit set outside
    0..63 and its popcount is at most the popcount of [b | m]. *)
Theorem placePiece_newBoard_bounded (b m : Z) :
  is_board b → is_board m →
  let newBoard := PlacementResult.newBoard (placePiece b m) in
  (∀ i, Z.testbit newBoard i = true → 0 ≤ i < 64)
  ∧ ∃ n k, countBits newBoard = Some n ∧ countBits (Z.lor b m) = Some k ∧ n ≤ k.
Proof.
  intros Hb Hm. cbn zeta. unfold placePiece. cbn [PlacementResult.newBoard].
  set (bb := Z.lor b m). assert (Hbb : is_board bb) by by apply is_board_lor.
  set (nb := clearLines bb _ _).
  assert (Hsub : ∀ i, Z.testbit nb i = true → Z.testbit bb i = true)
    by (intros i; apply clearLines_bits).
  assert (Hnb : is_board nb).
  { apply (is_board_subset _ bb); [done| |done].
    unfold nb, clearLines. apply Z.land_nonneg. left. apply Hbb. }
  split.
  - intros i. by apply is_board_testbit.
  - exists (popsum 64 nb), (popsum 64 bb).
    split; [by apply (countBits_popsum 64)|]. split; [by apply (countBits_popsum 64)|].
    apply popsum_mono. auto.
Qed.

Lemma placePiece_newBoard_bounded_witness :
  let newBoard := PlacementResult.newBoard (placePiece 127 128) in
  (∀ i, Z.testbit newBoard i = true → 0 ≤ i < 64)
  ∧ ∃ n k, countBits newBoard = Some n ∧ countBits (Z.lor 127 128) = Some k ∧ n ≤ k.
Proof.
  apply (placePiece_newBoard_bounded 127 128); unfold is_board; lia.
Defined.

End PlacementFacts.

Module PieceFacts.
Import Bitboard Pieces Spec BitboardFacts PlacementFacts.

Lemma isInBounds_true x y :
  isInBounds x y = true ↔ 0 ≤ x < 8 ∧ 0 ≤ y < 8.
Proof. unfold isInBounds, BOARD_SIZE. rewrite !andb_true_iff. lia. Qed.

Lemma is_board_bit k : 0 ≤ k < 64 → is_board (Z.shiftl 1 k).
Proof.
  intros Hk. apply is_board_bits. split; [apply Z.shiftl_nonneg; lia|].
  intros i Hi. rewrite testbit_shiftl_1 by lia. apply bool_decide_eq_false. lia.
Qed.

Lemma pieceMaskAt_loop_ok px py cells mask :
  is_board mask →
  Forall (λ c, isInBounds (px + c.1) (py + c.2) = true) cells →
  NoDup cells →
  (∀ c, c ∈ cells → Z.testbit mask (coordToIndex (px + c.1) (py + c.2)) = false) →
  is_board (pieceMaskAt_loop px py cells mask)
  ∧ popsum 64 (pieceMaskAt_loop px py cells mask)
    = popsum 64 mask + Z.of_nat (length cells).
Proof.
  revert mask. induction cells as [|[dx dy] rest IH]; intros mask Hm Hin Hnd Hfree.
  - cbn [pieceMaskAt_loop length]. split; [exact Hm|lia].
  - apply Forall_cons in Hin as [Hc Hin]. apply NoDup_cons in Hnd as [Hnotin Hnd].
    cbn [pieceMaskAt_loop]. cbn [fst snd] in Hc. rewrite Hc. cbn [negb].
    apply isInBounds_true in Hc.
    assert (Hk : 0 ≤ coordToIndex (px + dx) (py + dy) < 64)
      by (unfold coordToIndex, BOARD_SIZE; lia).
    destruct (IH (setBit mask (px + dx) (py + dy))) as [Hb Hsum]; [| done | done | |].
    + apply is_board_lor; [done|by apply is_board_bit].
    + intros [dx' dy'] Hc'. cbn [fst snd]. unfold setBit.
      rewrite Z.lor_spec, testbit_shiftl_1 by lia.
      pose proof (Hfree (dx', dy') ltac:(by right)) as Hf. cbn [fst snd] in Hf.
      rewrite Hf. cbn [orb].
      apply bool_decide_eq_false. intros Heq.
      rewrite Forall_forall in Hin. specialize (Hin _ Hc'). cbn [fst snd] in Hin.
      apply isInBounds_true in Hin. unfold coordToIndex, BOARD_SIZE in Heq.
      assert (dx' = dx ∧ dy' = dy) as [-> ->] by lia. done.
    + split; [done|]. rewrite Hsum. unfold setBit.
      rewrite popsum_set_bit; [|lia|apply (Hfree (dx, dy)); by left].
      cbn [fst snd].
      rewrite length_cons. lia.
Qed.

(** C6. For a piece whose occupied-cell offsets are distinct and lie inside
    its bounding box: at every anchor whose bounding box lies on the board
    [pieceMaskAt] returns a mask with exactly [len(cells)] bits set, all at
    indices 0..63; at every other anchor it returns the empty mask [0n]. *)
Theorem pieceMaskAt_spec (p : Piece.t) (px py : Z) :
  NoDup (Piece.cells p) → cells_in_box p →
  (anchor_in_bounds p px py →
     countBits (pieceMaskAt p px py) = Some (Z.of_nat (length (Piece.cells p)))
     ∧ ∀ i, Z.testbit (pieceMaskAt p px py) i = true → 0 ≤ i < 64)
  ∧ (¬ anchor_in_bounds p px py → pieceMaskAt p px py = 0).
Proof.
  intros Hnd Hbox. unfold anchor_in_bounds, BOARD_SIZE. split.
  - intros (Hx & Hy & Hw & Hh). unfold pieceMaskAt, BOARD_SIZE.
    replace (px <? 0) with false by lia. replace (py <? 0) with false by lia.
    replace (8 <? px + Piece.w p) with false by lia.
    replace (8 <? py + Piece.h p) with false by lia. cbn [orb].
    destruct (pieceMaskAt_loop_ok px py (Piece.cells p) 0) as [Hb Hsum].
    + unfold is_board. lia.
    + eapply Forall_impl; [exact Hbox|]. intros [dx dy]. cbn [fst snd].
      intros ?. apply isInBounds_true. lia.
    + done.
    + intros. apply Z.bits_0.
    + split.
      * rewrite (countBits_popsum 64) by exact Hb. rewrite Hsum. done.
      * intros i. by apply is_board_testbit.
  - intros Hout. unfold pieceMaskAt, BOARD_SIZE.
    destruct (px <? 0) eqn:E1; [done|]. destruct (py <? 0) eqn:E2; [done|].
    destruct (8 <? px + Piece.w p) eqn:E3; [done|].
    destruct (8 <? py + Piece.h p) eqn:E4; [done|]. lia.
Qed.

Lemma pieceMaskAt_spec_witness :
  let p := Piece.mk 7 2 2 [(0, 0); (0, 1); (1, 1)] "0,0;0,1;1,1" in
  (anchor_in_bounds p 6 6 →
     countBits (pieceMaskAt p 6 6) = Some 3
     ∧ ∀ i, Z.testbit (pieceMaskAt p 6 6) i = true → 0 ≤ i < 64)
  ∧ (¬ anchor_in_bounds p 6 6 → pieceMaskAt p 6 6 = 0).
Proof.
  apply (pieceMaskAt_spec (Piece.mk 7 2 2 [(0, 0); (0, 1); (1, 1)] "0,0;0,1;1,1") 6 6).
  - apply (bool_decide_unpack _). vm_compute. exact I.
  - unfold cells_in_box. cbn. repeat (apply Forall_cons_2; [simpl; lia|]). apply Forall_nil_2.
Defined.

End PieceFacts.

Module TreeFacts.
Import Bitboard Pieces GameLogic Tree Spec Examples.

Lemma getCurrentNode_Some tree c :
  StateTree.nodes tree !! StateTree.currentNodeId tree = Some c →
  getCurrentNode tree = Ok c.
Proof. unfold getCurrentNode. by intros ->. Qed.

Lemma with_currentNodeId_same tree :
  StateTree.with_currentNodeId tree (StateTree.currentNodeId tree) = tree.
Proof. by destruct tree. Qed.

(** Undo then redo comes back whenever the checked-out node is the last
    child of its parent: this is the state a fresh move leaves, and it
    lasts until another child is appended to that parent. *)
Lemma undo_redo_last_child tree c p parentId :
  StateTree.nodes tree !! StateTree.currentNodeId tree = Some c →
  GameNode.parentId c = Some parentId →
  StateTree.nodes tree !! parentId = Some p →
  last (GameNode.childrenIds p) = Some (StateTree.currentNodeId tree) →
  bindR (undo tree) redo = Ok tree.
Proof.
  intros Hc Hpar Hp Hlast. unfold undo. rewrite (getCurrentNode_Some _ _ Hc).
  cbn [bindR]. rewrite Hpar. unfold checkout at 1. rewrite Hp.
  cbn [bindR]. unfold redo, getCurrentNode.
  cbn [StateTree.with_currentNodeId StateTree.nodes StateTree.currentNodeId].
  rewrite Hp. cbn [bindR]. rewrite Hlast.
  unfold checkout. cbn [StateTree.nodes StateTree.with_currentNodeId].
  rewrite Hc. f_equal. by destruct tree.
Qed.

Lemma createInitialTree_wf board hand rootId now :
  tree_wf (createInitialTree board hand rootId now).
Proof.
  split; cbn.
  - intros k n. rewrite lookup_insert. case_decide; [by intros [= <-]|].
    by rewrite lookup_empty.
  - rewrite lookup_insert_eq. eauto.
Qed.

Lemma appendChild_wf tree c newNode :
  tree_wf tree →
  StateTree.nodes tree !! StateTree.currentNodeId tree = Some c →
  tree_wf (appendChild tree c newNode).
Proof.
  intros [Hids _] Hc. split; cbn.
  - intros k n. rewrite lookup_insert. case_decide; [by intros [= <-]|].
    rewrite lookup_insert. case_decide; [by intros [= <-]|]. apply Hids.
  - rewrite lookup_insert_eq. eauto.
Qed.

Lemma applyEditCellMove_wf tree x y newNodeId now tree' :
  tree_wf tree → applyEditCellMove tree x y newNodeId now = Ok tree' → tree_wf tree'.
Proof.
  intros Hwf. unfold applyEditCellMove, getCurrentNode.
  destruct (StateTree.nodes tree !! _) eqn:Hc; [|done]. cbn [bindR].
  intros [= <-]. by apply appendChild_wf.
Qed.

Lemma applySetHandMove_wf tree newHand newNodeId now tree' :
  tree_wf tree → applySetHandMove tree newHand newNodeId now = Ok tree' → tree_wf tree'.
Proof.
  intros Hwf. unfold applySetHandMove, getCurrentNode.
  destruct (StateTree.nodes tree !! _) eqn:Hc; [|done]. cbn [bindR].
  intros [= <-]. by apply appendChild_wf.
Qed.

Lemma checkout_wf tree nodeId tree' :
  tree_wf tree → checkout tree nodeId = Ok tree' → tree_wf tree'.
Proof.
  intros [Hids _]. unfold checkout.
  destruct (StateTree.nodes tree !! nodeId) eqn:Hn; [|done].
  intros [= <-]. split; cbn; [done|]. rewrite Hn. eauto.
Qed.

Lemma undo_wf tree tree' : tree_wf tree → undo tree = Ok tree' → tree_wf tree'.
Proof.
  intros Hwf. unfold undo, getCurrentNode.
  destruct (StateTree.nodes tree !! _); [|done]. cbn [bindR].
  destruct (GameNode.parentId _); [by apply checkout_wf|by intros [= <-]].
Qed.

Lemma redo_wf tree tree' : tree_wf tree → redo tree = Ok tree' → tree_wf tree'.
Proof.
  intros Hwf. unfold redo, getCurrentNode.
  destruct (StateTree.nodes tree !! _); [|done]. cbn [bindR].
  destruct (last _); [by apply checkout_wf|by intros [= <-]].
Qed.

Section Catalog.
Variable rawPieces : list Piece.t.

(** C1. With [currentNode] the checked-out node: when the hand index is out
    of range, or the slot is already used, or the slot does not hold
    [pieceId], or the piece mask at [(x, y)] is empty, or the mask overlaps
    the board, [applyPlaceMove] throws one of its validation errors and
    produces no tree: a caller that keeps its tree on a throw has the tree
    it had. *)
Theorem applyPlaceMove_invalid (tree : StateTree.t) (pieceId handIndex x y : Z)
    (newNodeId : NodeId) (now : Z) (currentNode : GameNode.t) :
  StateTree.nodes tree !! StateTree.currentNodeId tree = Some currentNode →
  (handIndex < 0
   ∨ Z.of_nat (length (GameNode.hand currentNode)) ≤ handIndex
   ∨ js_index (GameNode.handUsed currentNode) handIndex = Some true
   ∨ js_index (GameNode.hand currentNode) handIndex ≠ Some pieceId
   ∨ (∀ piece, PIECES rawPieces !! pieceId = Some piece →
        pieceMaskAt piece x y = 0
        ∨ Z.land (GameNode.board currentNode) (pieceMaskAt piece x y) ≠ 0)) →
  let r := applyPlaceMove rawPieces tree pieceId handIndex x y newNodeId now in
  (∃ e, r = Throw e
        ∧ e ∈ [InvalidHandIndex handIndex; PieceAlreadyUsed handIndex;
               PieceIdMismatch (js_index (GameNode.hand currentNode) handIndex) pieceId;
               UnknownPieceId pieceId; CannotPlacePiece pieceId x y; Overlap x y])
  ∧ tryUpdate tree r = tree.
Proof.
  intros Hc Hbad. cbn zeta.
  assert (H : ∃ e, applyPlaceMove rawPieces tree pieceId handIndex x y newNodeId now
                   = Throw e
              ∧ e ∈ [InvalidHandIndex handIndex; PieceAlreadyUsed handIndex;
                     PieceIdMismatch (js_index (GameNode.hand currentNode) handIndex) pieceId;
                     UnknownPieceId pieceId; CannotPlacePiece pieceId x y; Overlap x y]).
  { unfold applyPlaceMove. rewrite (getCurrentNode_Some _ _ Hc). cbn [bindR].
    destruct ((handIndex <? 0) || _) eqn:Erange.
    { eexists. split; [done|apply list_elem_of_In; simpl; auto 10]. }
    apply orb_false_iff in Erange as [E1 E2].
    destruct (default false _) eqn:Eused.
    { eexists. split; [done|apply list_elem_of_In; simpl; auto 10]. }
    case_bool_decide as Eid; cbn [negb].
    2:{ eexists. split; [done|apply list_elem_of_In; simpl; auto 10]. }
    destruct (PIECES rawPieces !! pieceId) as [piece|] eqn:Epiece.
    2:{ eexists. split; [done|apply list_elem_of_In; simpl; auto 10]. }
    destruct (pieceMaskAt piece x y =? 0) eqn:Emask.
    { eexists. split; [done|apply list_elem_of_In; simpl; auto 10]. }
    destruct (Z.land _ _ =? 0) eqn:Eov; cbn [negb].
    2:{ eexists. split; [done|apply list_elem_of_In; simpl; auto 10]. }
    exfalso. destruct Hbad as [?|[?|[Hu|[?|Hm]]]]; [lia|lia| |done|].
    - rewrite Hu in Eused. done.
    - destruct (Hm _ eq_refl); lia. }
  destruct H as (e & -> & He). split; [by exists e|done].
Qed.

(** What an accepted place move builds. *)
Lemma applyPlaceMove_Ok tree pieceId handIndex x y newNodeId now tree' :
  applyPlaceMove rawPieces tree pieceId handIndex x y newNodeId now = Ok tree' →
  ∃ currentNode piece newNode,
    StateTree.nodes tree !! StateTree.currentNodeId tree = Some currentNode
    ∧ 0 ≤ handIndex < Z.of_nat (length (GameNode.hand currentNode))
    ∧ js_index (GameNode.handUsed currentNode) handIndex ≠ Some true
    ∧ js_index (GameNode.hand currentNode) handIndex = Some pieceId
    ∧ PIECES rawPieces !! pieceId = Some piece
    ∧ pieceMaskAt piece x y ≠ 0
    ∧ Z.land (GameNode.board currentNode) (pieceMaskAt piece x y) = 0
    ∧ GameNode.id newNode = newNodeId
    ∧ GameNode.parentId newNode = Some (GameNode.id currentNode)
    ∧ GameNode.childrenIds newNode = []
    ∧ GameNode.board newNode
      = PlacementResult.newBoard
          (placePiece (GameNode.board currentNode) (pieceMaskAt piece x y))
    ∧ GameNode.hand newNode = GameNode.hand currentNode
    ∧ tree' = appendChild tree currentNode newNode.
Proof.
  unfold applyPlaceMove, getCurrentNode.
  destruct (StateTree.nodes tree !! _) as [c|] eqn:Hc; [|done]. cbn [bindR].
  destruct ((handIndex <? 0) || _) eqn:Erange; [done|].
  apply orb_false_iff in Erange as [E1 E2].
  destruct (default false _) eqn:Eused; [done|].
  case_bool_decide as Eid; cbn [negb]; [|done].
  destruct (PIECES rawPieces !! pieceId) as [piece|] eqn:Epiece; [|done].
  destruct (pieceMaskAt piece x y =? 0) eqn:Emask; [done|].
  destruct (Z.land _ _ =? 0) eqn:Eov; cbn [negb]; [|done].
  lazymatch goal with
  | |- Ok (appendChild _ _ ?n) = Ok _ → _ => intros [= <-]; exists c, piece, n
  end.
  repeat split; try done; try lia.
  intros Hu. rewrite Hu in Eused. done.
Qed.

Lemma applyPlaceMove_wf tree pieceId handIndex x y newNodeId now tree' :
  tree_wf tree →
  applyPlaceMove rawPieces tree pieceId handIndex x y newNodeId now = Ok tree' →
  tree_wf tree'.
Proof.
  intros Hwf (c & piece & newNode & Hc & _ & _ & _ & _ & _ & _ & _ & _ & _ & _ & _ & ->)
    %applyPlaceMove_Ok.
  by apply appendChild_wf.
Qed.

Lemma appendChild_undo_redo tree c newNode :
  GameNode.parentId newNode = Some (GameNode.id c) →
  GameNode.childrenIds newNode = [] →
  let tree' := appendChild tree c newNode in
  bindR (undo tree') redo = Ok tree'.
Proof.
  intros Hpar Hch. cbn zeta.
  destruct (decide (GameNode.id c = GameNode.id newNode)) as [Heq|Hne].
  - (* the new id collides with the parent's: the new node took its place *)
    unfold appendChild, undo, redo, getCurrentNode. rewrite <- Heq.
    cbn [StateTree.nodes StateTree.currentNodeId]. rewrite lookup_insert_eq.
    cbn [bindR]. rewrite Hpar. unfold checkout.
    cbn [StateTree.nodes]. rewrite lookup_insert_eq.
    cbn [StateTree.with_currentNodeId StateTree.nodes StateTree.currentNodeId
         StateTree.rootNodeId bindR].
    rewrite lookup_insert_eq. cbn [bindR]. by rewrite Hch.
  - eapply undo_redo_last_child.
    + unfold appendChild. cbn [StateTree.nodes StateTree.currentNodeId].
      apply lookup_insert_eq.
    + exact Hpar.
    + unfold appendChild. cbn [StateTree.nodes].
      rewrite lookup_insert_ne by done. apply lookup_insert_eq.
    + cbn [GameNode.with_childrenIds GameNode.childrenIds appendChild
           StateTree.currentNodeId]. apply last_snoc.
Qed.

(** C7. Once a place move has been accepted, the new node is checked out;
    undo followed by redo then gives back the very same tree: the same
    checked-out node id, holding the same board, hand and handUsed. *)
Theorem undo_redo_after_place (tree tree' : StateTree.t) (pieceId handIndex x y : Z)
    (newNodeId : NodeId) (now : Z) :
  applyPlaceMove rawPieces tree pieceId handIndex x y newNodeId now = Ok tree' →
  StateTree.currentNodeId tree' = newNodeId
  ∧ bindR (undo tree') redo = Ok tree'
  ∧ ∀ tree'', bindR (undo tree') redo = Ok tree'' →
      StateTree.currentNodeId tree'' = newNodeId
      ∧ ∃ n, getCurrentNode tree' = Ok n ∧ getCurrentNode tree'' = Ok n.
Proof.
  intros (c & piece & newNode & Hc & _ & _ & _ & _ & _ & _ & Hid & Hpar & Hch & _ & _ & ->)
    %applyPlaceMove_Ok.
  pose proof (appendChild_undo_redo tree c newNode Hpar Hch) as Hur. cbn zeta in Hur.
  split; [by rewrite <- Hid|]. split; [done|].
  intros tree''. rewrite Hur. intros [= <-]. split; [by rewrite <- Hid|].
  exists newNode. split; unfold getCurrentNode, appendChild;
    cbn [StateTree.nodes StateTree.currentNodeId]; by rewrite lookup_insert_eq.
Qed.

End Catalog.

Lemma applyPlaceMove_invalid_witness :
  let r := applyPlaceMove catalog tree0 1 5 0 0 "n" 1 in
  (∃ e, r = Throw e
        ∧ e ∈ [InvalidHandIndex 5; PieceAlreadyUsed 5;
               PieceIdMismatch (js_index [1; 1; 2] 5) 1;
               UnknownPieceId 1; CannotPlacePiece 1 0 0; Overlap 0 0])
  ∧ tryUpdate tree0 r = tree0.
Proof.
  apply (applyPlaceMove_invalid catalog tree0 1 5 0 0 "n" 1
           (GameNode.mk "root" None [] 0 [1; 1; 2] [false; false; false] None 0 None)).
  - vm_compute. reflexivity.
  - right. left. simpl. lia.
Defined.

Lemma undo_redo_after_place_witness :
  let tree' := tryUpdate tree2 (applyPlaceMove catalog tree2 2 2 2 0 "c" 3) in
  StateTree.currentNodeId tree' = "c"
  ∧ bindR (undo tree') redo = Ok tree'
  ∧ ∀ tree'', bindR (undo tree') redo = Ok tree'' →
      StateTree.currentNodeId tree'' = "c"
      ∧ ∃ n, getCurrentNode tree' = Ok n ∧ getCurrentNode tree'' = Ok n.
Proof.
  apply (undo_redo_after_place catalog tree2 _ 2 2 2 0 "c" 3).
  vm_compute. reflexivity.
Defined.

(** C9. [applyEditCellMove] checks no coordinate: for every integer pair
    [(x, y)], on a tree whose checked-out node is stored under its own id
    and with a node id not yet in the tree, it succeeds, adds exactly one
    node, the new child of the checked-out node, and that node's board is
    the parent's board XOR [1 << (y*8 + x)].  At [(0, 8)] the new board has
    bit 64 set, so it is no longer confined to bits 0..63. *)
Theorem applyEditCellMove_unchecked (tree : StateTree.t) (x y : Z)
    (newNodeId : NodeId) (now : Z) (c : GameNode.t) :
  StateTree.nodes tree !! StateTree.currentNodeId tree = Some c →
  GameNode.id c = StateTree.currentNodeId tree →
  StateTree.nodes tree !! newNodeId = None →
  ∃ tree' n,
    applyEditCellMove tree x y newNodeId now = Ok tree'
    ∧ StateTree.currentNodeId tree' = newNodeId
    ∧ StateTree.nodes tree' !! newNodeId = Some n
    ∧ GameNode.board n = Z.lxor (GameNode.board c) (Z.shiftl 1 (y * 8 + x))
    ∧ GameNode.parentId n = Some (StateTree.currentNodeId tree)
    ∧ GameNode.childrenIds n = []
    ∧ dom (StateTree.nodes tree') = dom (StateTree.nodes tree) ∪ {[newNodeId]}
    ∧ size (StateTree.nodes tree') = S (size (StateTree.nodes tree))
    ∧ StateTree.nodes tree' !! StateTree.currentNodeId tree
      = Some (GameNode.with_childrenIds c (GameNode.childrenIds c ++ [newNodeId]))
    ∧ (∀ k, k ≠ newNodeId → k ≠ StateTree.currentNodeId tree →
         StateTree.nodes tree' !! k = StateTree.nodes tree !! k)
    ∧ (x = 0 → y = 8 → is_board (GameNode.board c) →
         Z.testbit (GameNode.board n) 64 = true ∧ ¬ is_board (GameNode.board n)).
Proof.
  intros Hc Hid Hfresh. unfold applyEditCellMove.
  rewrite (getCurrentNode_Some _ _ Hc). cbn [bindR]. eexists _, _.
  split; [reflexivity|]. unfold appendChild.
  cbn [StateTree.currentNodeId StateTree.nodes GameNode.id GameNode.board
       GameNode.parentId GameNode.childrenIds].
  rewrite Hid.
  assert (Hne : StateTree.currentNodeId tree ≠ newNodeId) by congruence.
  split; [done|]. split; [apply lookup_insert_eq|].
  split; [done|]. split; [done|]. split; [done|]. split.
  { rewrite !dom_insert_L.
    assert (StateTree.currentNodeId tree ∈ dom (StateTree.nodes tree))
      by (apply elem_of_dom; eauto).
    apply set_eq. intros k. rewrite !elem_of_union, !elem_of_singleton.
    split.
    - intros [Hk|[Hk|Hk]]; subst; auto.
    - intros [Hk|Hk]; subst; auto. }
  split.
  { rewrite map_size_insert_None by (by rewrite lookup_insert_ne).
    f_equal. apply map_size_insert_Some. eauto. }
  split; [rewrite lookup_insert_ne by done; apply lookup_insert_eq|].
  split; [intros k Hk1 Hk2; by rewrite !lookup_insert_ne|].
  intros -> -> Hb. unfold toggleBit, coordToIndex, BOARD_SIZE.
  apply BitboardFacts.is_board_bits in Hb as [Hb0 Hb].
  assert (Hbit : Z.testbit (Z.lxor (GameNode.board c) (Z.shiftl 1 (8 * 8 + 0))) 64 = true).
  { rewrite Z.lxor_spec, Hb by lia. reflexivity. }
  split; [exact Hbit|].
  intros [_ Hhi]%BitboardFacts.is_board_bits. rewrite Hhi in Hbit by lia. done.
Qed.

Lemma applyEditCellMove_unchecked_witness :
  ∃ tree' n,
    applyEditCellMove tree0 0 8 "n" 1 = Ok tree'
    ∧ StateTree.currentNodeId tree' = "n"
    ∧ StateTree.nodes tree' !! "n" = Some n
    ∧ GameNode.board n = Z.lxor 0 (Z.shiftl 1 (8 * 8 + 0))
    ∧ Z.testbit (GameNode.board n) 64 = true ∧ ¬ is_board (GameNode.board n).
Proof.
  destruct (applyEditCellMove_unchecked tree0 0 8 "n" 1
              (GameNode.mk "root" None [] 0 [1; 1; 2] [false; false; false] None 0 None))
    as (tree' & n & H1 & H2 & H3 & H4 & _ & _ & _ & _ & _ & _ & H5).
  - vm_compute. reflexivity.
  - reflexivity.
  - vm_compute. reflexivity.
  - exists tree', n. repeat split; try assumption.
    + apply H5; [reflexivity|reflexivity|unfold is_board; simpl; lia].
    + apply H5; [reflexivity|reflexivity|unfold is_board; simpl; lia].
Defined.

(** The two guards of [deleteBranch]: asked to delete the root or the
    checked-out node, it throws before it builds anything. *)
Lemma deleteBranch_guards fuel tree nodeId :
  nodeId = StateTree.rootNodeId tree ∨ nodeId = StateTree.currentNodeId tree →
  ∃ e, deleteBranch fuel tree nodeId = Some (Throw e)
       ∧ e ∈ [CannotDeleteRoot; CannotDeleteCurrent]
       ∧ (tryUpdate tree <$> deleteBranch fuel tree nodeId) = Some tree.
Proof.
  intros H. unfold deleteBranch.
  case_bool_decide as Hr.
  { eexists. split; [done|]. split; [|done]. apply list_elem_of_In; simpl; auto. }
  case_bool_decide as Hcur.
  { eexists. split; [done|]. split; [|done]. apply list_elem_of_In; simpl; auto. }
  by destruct H.
Qed.

(** More fuel never changes what the queue loop returns. *)
Lemma collectDescendants_fuel_mono fuel fuel' nodes queue toDelete r :
  collectDescendants fuel nodes queue toDelete = Some r → (fuel ≤ fuel')%nat →
  collectDescendants fuel' nodes queue toDelete = Some r.
Proof.
  revert fuel' queue toDelete. induction fuel as [|fuel IH]; intros fuel' queue toDelete.
  - destruct queue; [|done]. intros [= <-] _. by destruct fuel'.
  - destruct queue as [|id queue]; [intros [= <-] _; by destruct fuel'|].
    intros H Hle. destruct fuel' as [|fuel']; [lia|].
    cbn [collectDescendants] in *. apply IH; [exact H|lia].
Qed.

Lemma tree2_wf : tree_wf tree2.
Proof.
  assert (H0 : tree_wf tree0) by apply createInitialTree_wf.
  assert (H1 : tree_wf tree1).
  { unfold tree1. destruct (applyEditCellMove tree0 0 0 "a" 1) as [t|e] eqn:E; cbn.
    - by apply (applyEditCellMove_wf tree0 0 0 "a" 1).
    - exact H0. }
  unfold tree2. destruct (applyEditCellMove tree1 1 0 "b" 2) as [t|e] eqn:E; cbn.
  - by apply (applyEditCellMove_wf tree1 1 0 "b" 2).
  - exact H1.
Qed.

(** C8 (the code departs from it). On root -> a -> b with b checked out,
    [deleteBranch] given a (neither the root nor the checked-out node)
    passes both guards and removes a and its descendant b: the checked-out
    node is removed, [currentNodeId] is left naming a node that is gone and
    [getCurrentNode] throws from then on. *)
Theorem deleteBranch_removes_current :
  tree_wf tree2
  ∧ StateTree.rootNodeId tree2 = "root"
  ∧ StateTree.currentNodeId tree2 = "b"
  ∧ is_Some (StateTree.nodes tree2 !! "b")
  ∧ ∃ tree',
      (∀ fuel, (2 ≤ fuel)%nat → deleteBranch fuel tree2 "a" = Some (Ok tree'))
      ∧ StateTree.currentNodeId tree' = "b"
      ∧ StateTree.nodes tree' !! "b" = None
      ∧ dom (StateTree.nodes tree') = {["root"]}
      ∧ getCurrentNode tree' = Throw (CurrentNodeNotFound "b")
      ∧ ¬ tree_wf tree'.
Proof.
  split; [exact tree2_wf|].
  split; [reflexivity|]. split; [reflexivity|].
  split; [vm_compute; eauto|].
  destruct (deleteBranch 2 tree2 "a") as [[tree'|e]|] eqn:E;
    [|vm_compute in E; discriminate E|vm_compute in E; discriminate E].
  exists tree'. split.
  - intros fuel Hfuel. rewrite <- E. unfold deleteBranch.
    change (bool_decide ("a" = StateTree.rootNodeId tree2)) with false.
    change (bool_decide ("a" = StateTree.currentNodeId tree2)) with false.
    cbn match.
    destruct (StateTree.nodes tree2 !! "a") as [nd|]; [|reflexivity].
    destruct (collectDescendants 2 (StateTree.nodes tree2) ["a"] ∅) as [r|] eqn:Er;
      [|vm_compute in Er; discriminate Er].
    by rewrite (collectDescendants_fuel_mono 2 fuel _ _ _ r Er Hfuel).
  - vm_compute in E. injection E as <-.
    split; [reflexivity|]. split; [vm_compute; reflexivity|].
    split; [vm_compute; reflexivity|]. split; [vm_compute; reflexivity|].
    intros [_ [n Hn]]. vm_compute in Hn. discriminate Hn.
Qed.

End TreeFacts.

Module CatalogFacts.
Import Bitboard Pieces GameLogic Solver Spec.

Section Catalog.
Variable rawPieces : list Piece.t.

(** Every catalog entry is stored under its own id. *)
Lemma PIECES_id k p : PIECES rawPieces !! k = Some p → Piece.id p = k.
Proof.
  unfold PIECES.
  assert (H : ∀ (m : gmap Z Piece.t),
             (∀ k p, m !! k = Some p → Piece.id p = k) →
             ∀ k p, foldl (λ m p, <[Piece.id p := p]> m) m rawPieces !! k = Some p →
                    Piece.id p = k).
  { induction rawPieces as [|q l IH]; intros m Hm k' p'; [apply Hm|].
    cbn [foldl]. apply IH. intros k'' p''.
    rewrite lookup_insert. case_decide; [by intros [= <-]|apply Hm]. }
  apply H. intros ? ?. by rewrite lookup_empty.
Qed.

(** The placement table holds, under each catalog id, the placements of
    that piece. *)
Lemma PRECOMPUTED_PLACEMENTS_lookup k :
  PRECOMPUTED_PLACEMENTS rawPieces !! k = placementsOf <$> PIECES rawPieces !! k.
Proof.
  unfold PRECOMPUTED_PLACEMENTS, precomputeAllPlacements.
  pose proof PIECES_id as Hid. revert Hid k.
  generalize (PIECES rawPieces).
  apply (map_fold_weak_ind
    (λ (r : gmap Z (list Placement.t)) (m : gmap Z Piece.t),
       (∀ k p, m !! k = Some p → Piece.id p = k) →
       ∀ k, r !! k = placementsOf <$> m !! k)).
  - intros _ k. by rewrite !lookup_empty.
  - intros i x m r Hi IH Hid k.
    assert (Piece.id x = i) as -> by (apply Hid, lookup_insert_eq).
    rewrite !lookup_insert. case_decide; [done|].
    apply IH. intros k' p' Hk'. apply Hid.
    rewrite lookup_insert_ne; [done|]. intros ->. congruence.
Qed.

Lemma pieceMaskAt_nonzero_bounds piece px py :
  pieceMaskAt piece px py ≠ 0 →
  0 ≤ px ∧ 0 ≤ py ∧ px + Piece.w piece ≤ 8 ∧ py + Piece.h piece ≤ 8.
Proof.
  unfold pieceMaskAt, BOARD_SIZE.
  destruct (px <? 0) eqn:E1; [done|]. destruct (py <? 0) eqn:E2; [done|].
  destruct (8 <? px + Piece.w piece) eqn:E3; [done|].
  destruct (8 <? py + Piece.h piece) eqn:E4; [done|]. lia.
Qed.

Lemma canPlace_iff board piece px py :
  canPlace board piece px py = true
  ↔ pieceMaskAt piece px py ≠ 0 ∧ Z.land board (pieceMaskAt piece px py) = 0.
Proof.
  unfold canPlace. split.
  - destruct (_ || _); [done|]. destruct (pieceMaskAt piece px py =? 0) eqn:E; [done|]. lia.
  - intros [Hm Ho]. destruct (pieceMaskAt_nonzero_bounds _ _ _ Hm) as (?&?&?&?).
    unfold BOARD_SIZE.
    replace (px <? 0) with false by lia. replace (py <? 0) with false by lia.
    replace (8 <? px + Piece.w piece) with false by lia.
    replace (8 <? py + Piece.h piece) with false by lia. cbn [orb].
    destruct (pieceMaskAt piece px py =? 0) eqn:E; lia.
Qed.

Lemma elem_of_placementsOf piece p :
  p ∈ placementsOf piece
  ↔ Placement.mask p = pieceMaskAt piece (Placement.x p) (Placement.y p)
    ∧ Placement.mask p ≠ 0.
Proof.
  unfold placementsOf. rewrite list_elem_of_In, in_flat_map. split.
  - intros (py & _ & Hin). apply in_flat_map in Hin as (px & _ & Hin).
    cbn zeta in Hin. destruct (pieceMaskAt piece px py =? 0) eqn:E; [done|].
    destruct Hin as [<-|[]]. cbn. split; [done|lia].
  - destruct p as [px py m]. cbn. intros [-> Hm].
    destruct (pieceMaskAt_nonzero_bounds _ _ _ Hm) as (?&?&?&?).
    exists py. split; [apply list_elem_of_In, elem_of_seqZ; unfold BOARD_SIZE; lia|].
    apply in_flat_map. exists px.
    split; [apply list_elem_of_In, elem_of_seqZ; unfold BOARD_SIZE; lia|].
    cbn zeta. destruct (pieceMaskAt piece px py =? 0) eqn:E; [lia|]. by left.
Qed.

(** A legal placement of the table is a catalog piece at an anchor where
    [canPlace] holds. *)
Lemma elem_of_getLegalPlacements board pieceId p :
  p ∈ getLegalPlacements rawPieces board pieceId
  ↔ ∃ piece, PIECES rawPieces !! pieceId = Some piece
             ∧ canPlace board piece (Placement.x p) (Placement.y p) = true
             ∧ Placement.mask p = pieceMaskAt piece (Placement.x p) (Placement.y p).
Proof.
  unfold getLegalPlacements. rewrite PRECOMPUTED_PLACEMENTS_lookup.
  destruct (PIECES rawPieces !! pieceId) as [piece|]; cbn [fmap option_fmap option_map].
  - rewrite list_elem_of_filter, elem_of_placementsOf. split.
    + intros (Ho & Hm & Hnz). exists piece. split; [done|]. split; [|done].
      apply canPlace_iff. by rewrite <- Hm.
    + intros (piece' & [= <-] & Hcan & Hm). apply canPlace_iff in Hcan as [? ?].
      rewrite Hm. done.
  - split; [by intros ?%elem_of_nil|by intros (? & ? & _)].
Qed.

Lemma placeable_seq_cons_iff board pieceId rest :
  placeable_seq rawPieces board (pieceId :: rest)
  ↔ ∃ p, p ∈ getLegalPlacements rawPieces board pieceId
         ∧ placeable_seq rawPieces
             (PlacementResult.newBoard (placePiece board (Placement.mask p))) rest.
Proof.
  split.
  - inversion 1 as [|? ? piece x y ? Hp Hcan Hrest]; subst.
    exists (Placement.mk x y (pieceMaskAt piece x y)). split; [|done].
    apply elem_of_getLegalPlacements. by exists piece.
  - intros (p & (piece & Hp & Hcan & Hm)%elem_of_getLegalPlacements & Hrest).
    rewrite Hm in Hrest. by econstructor.
Qed.

End Catalog.
End CatalogFacts.

Module SolverFacts.
Import Bitboard Pieces GameLogic Solver Spec CatalogFacts Examples.

Lemma permutations_3 :
  permutations [0; 1; 2]
  = [[0; 1; 2]; [0; 2; 1]; [1; 0; 2]; [1; 2; 0]; [2; 0; 1]; [2; 1; 0]].
Proof. reflexivity. Qed.

(** With fuel at least the length of the array, [permutations_fuel] does
    not depend on the fuel. *)
Lemma permutations_fuel_enough {A : Type} (fuel fuel' : nat) (arr : list A) :
  (length arr ≤ fuel)%nat → (length arr ≤ fuel')%nat →
  permutations_fuel fuel arr = permutations_fuel fuel' arr.
Proof.
  revert fuel' arr. induction fuel as [|fuel IH]; intros fuel' arr H1 H2.
  - destruct arr; [|simpl in H1; lia]. by destruct fuel'.
  - destruct fuel' as [|fuel'].
    { destruct arr; [done|simpl in H2; lia]. }
    cbn [permutations_fuel]. destruct (length arr <=? 1)%nat eqn:E; [done|].
    apply Nat.leb_gt in E.
    assert (Hext : ∀ (f g : nat → list (list A)) l,
               (∀ i, In i l → f i = g i) → flat_map f l = flat_map g l).
    { intros f g l. induction l as [|i l IHl]; intros Hfg; [done|].
      cbn [flat_map]. rewrite Hfg by (by left). f_equal. apply IHl.
      intros j Hj. apply Hfg. by right. }
    apply Hext. intros i Hi%in_seq.
    destruct (arr !! i) eqn:Ei; [|done]. f_equal.
    assert (length (take i arr ++ drop (S i) arr) = length arr - 1)%nat.
    { rewrite length_app, length_take, length_drop. lia. }
    apply IH; lia.
Qed.

Lemma capReached_remaining cap sols :
  capReached sols cap = true ↔ remaining cap sols = 0%nat.
Proof. unfold capReached, remaining. rewrite Z.leb_le. lia. Qed.

Lemma collect_loop_take {A : Type} cap (body : A → list Solution.t → Result (list Solution.t))
    (E : A → list Solution.t) (l : list A) :
  (∀ a sols, a ∈ l → body a sols = Ok (sols ++ take (remaining cap sols) (E a))) →
  ∀ sols, collect_loop cap body l sols
          = Ok (sols ++ take (remaining cap sols) (flat_map E l)).
Proof.
  induction l as [|a more IH]; intros Hbody sols.
  - cbn. by rewrite take_nil, app_nil_r.
  - cbn [collect_loop flat_map]. destruct (capReached sols cap) eqn:Ecap.
    + apply capReached_remaining in Ecap. rewrite Ecap, take_0, app_nil_r. done.
    + rewrite Hbody by (by left). rewrite IH by (intros; apply Hbody; by right).
      rewrite take_app, <- app_assoc. do 3 f_equal.
      apply (f_equal (λ n, take n _)).
      unfold remaining. rewrite length_app, length_take. lia.
Qed.

Lemma first_some_None {A B : Type} (f : A → option B) l :
  first_some f l = None ↔ ∀ a, a ∈ l → f a = None.
Proof.
  induction l as [|a l IH]; cbn.
  - split; [by intros _ ? ?%elem_of_nil|done].
  - destruct (f a) eqn:E.
    + split; [done|]. intros H. specialize (H a). rewrite E in H. apply H. by left.
    + rewrite IH. split.
      * intros H a' [->|?]%elem_of_cons; auto.
      * intros H a' ?. apply H. by right.
Qed.

Lemma first_some_Some {A B : Type} (f : A → option B) l b :
  first_some f l = Some b → ∃ a, a ∈ l ∧ f a = Some b.
Proof.
  induction l as [|a l IH]; cbn; [done|].
  destruct (f a) eqn:E.
  - intros [= <-]. exists a. split; [by left|done].
  - intros (a' & ? & ?)%IH. exists a'. split; [by right|done].
Qed.

Lemma flat_map_nil_iff {A B : Type} (f : A → list B) l :
  flat_map f l = [] ↔ ∀ a, a ∈ l → f a = [].
Proof.
  induction l as [|a l IH]; cbn.
  - split; [by intros _ ? ?%elem_of_nil|done].
  - split.
    + intros [Ha Hl]%app_eq_nil a' [->|?]%elem_of_cons; [done|]. by apply IH.
    + intros H. rewrite (H a) by (by left). apply IH. intros a' ?. apply H. by right.
Qed.

(** The head of an array sorted by descending mobility is the first
    element of maximum mobility of the array before the sort. *)
Lemma js_sort_head (l : list Solution.t) :
  l ≠ [] →
  ∃ s, head (js_sort (λ a b, Solution.mobility b - Solution.mobility a) l) = Some s
       ∧ first_max_mobility l s.
Proof.
  induction l as [|a l IH]; [done|]. intros _. cbn [js_sort foldr].
  fold (js_sort (λ a b, Solution.mobility b - Solution.mobility a) l).
  destruct l as [|b l].
  { cbn. exists a. split; [done|]. exists 0%nat. split; [done|]. split.
    - intros [|j] s'; cbn; [intros [= <-]; lia|done].
    - intros j s' _ ?. lia. }
  destruct IH as (s & Hhead & i & Hi & Hmax & Hfirst); [done|].
  destruct (js_sort _ (b :: l)) as [|s0 sorted]; [done|]. cbn in Hhead.
  injection Hhead as ->. cbn [js_sort_insert].
  destruct (Solution.mobility s - Solution.mobility a <=? 0) eqn:E.
  - exists a. split; [done|]. exists 0%nat. split; [done|]. split.
    + intros [|j] s'; cbn [lookup list_lookup].
      * intros [= <-]. lia.
      * intros Hj. specialize (Hmax j s' Hj). lia.
    + intros j s' _ ?. lia.
  - exists s. split; [done|]. exists (S i). split; [done|]. split.
    + intros [|j] s'; cbn [lookup list_lookup].
      * intros [= <-]. lia.
      * apply Hmax.
    + intros [|j] s'; cbn [lookup list_lookup].
      * intros [= <-] _. lia.
      * intros Hj ?. apply (Hfirst j s' Hj). lia.
Qed.

Section Catalog.
Variable rawPieces : list Piece.t.

Lemma dfs_from_cons board pieceId rest hi depth path ee :
  dfs_from rawPieces board (pieceId :: rest) hi depth path ee
  = first_some (λ p,
      let result := placePiece board (Placement.mask p) in
      dfs_from rawPieces (PlacementResult.newBoard result) rest hi (S depth)
        (path ++ [mkStep pieceId (hi !! depth ≫= id) p result]) ee)
      (getLegalPlacements rawPieces board pieceId).
Proof.
  cbn [dfs_from]. generalize (getLegalPlacements rawPieces board pieceId).
  intros l. induction l as [|p l IH]; [done|].
  cbn [first_some foldr]. cbn zeta. destruct (dfs_from _ _ _ _ _ _ _); [done|].
  exact IH.
Qed.

(** The two equations of the source's [dfs], read at index [depth]. *)
Lemma dfs_end board order hi path ee :
  dfs rawPieces board order hi (length order) path ee = Some path.
Proof. unfold dfs. by rewrite drop_all. Qed.

Lemma dfs_step board order hi depth path ee pieceId :
  order !! depth = Some pieceId →
  dfs rawPieces board order hi depth path ee
  = first_some (λ p,
      let result := placePiece board (Placement.mask p) in
      dfs rawPieces (PlacementResult.newBoard result) order hi (S depth)
        (path ++ [mkStep pieceId (hi !! depth ≫= id) p result]) ee)
      (getLegalPlacements rawPieces board pieceId).
Proof.
  intros Hd. unfold dfs. by rewrite (drop_S _ _ _ Hd), dfs_from_cons.
Qed.

(** What [dfs] returns: a path extended by one step per remaining piece
    when a complete placement sequence exists, [null] when none does. *)
Lemma dfs_from_spec board rest hi depth path ee :
  match dfs_from rawPieces board rest hi depth path ee with
  | Some res =>
      placeable_seq rawPieces board rest
      ∧ length res = (length path + length rest)%nat
  | None => ¬ placeable_seq rawPieces board rest
  end.
Proof.
  revert board depth path. induction rest as [|pieceId rest IH]; intros board depth path.
  - cbn. split; [constructor|lia].
  - rewrite dfs_from_cons. destruct (first_some _ _) as [res|] eqn:E.
    + apply first_some_Some in E as (p & Hp & Hres). cbn zeta in Hres.
      specialize (IH (PlacementResult.newBoard (placePiece board (Placement.mask p)))
                    (S depth)
                    (path ++ [mkStep pieceId (hi !! depth ≫= id) p
                                (placePiece board (Placement.mask p))])).
      rewrite Hres in IH. destruct IH as [Hseq Hlen]. split.
      * apply placeable_seq_cons_iff. eauto.
      * rewrite Hlen, length_app. cbn. lia.
    + intros (p & Hp & Hseq)%placeable_seq_cons_iff.
      pose proof (proj1 (first_some_None _ _) E p Hp) as Hnone. cbn zeta in Hnone.
      specialize (IH (PlacementResult.newBoard (placePiece board (Placement.mask p)))
                    (S depth)
                    (path ++ [mkStep pieceId (hi !! depth ≫= id) p
                                (placePiece board (Placement.mask p))])).
      rewrite Hnone in IH. done.
Qed.

Lemma solveTriple_loop_spec board hand orders :
  Forall (λ o, o ≠ []) orders →
  ∃ r, solveTriple_loop rawPieces board hand orders = Ok r
       ∧ (r = None ↔ ∀ o, o ∈ orders → ¬ placeable_seq rawPieces board (pick hand o)).
Proof.
  induction orders as [|o orders IH]; intros Hne.
  - exists None. split; [done|]. split; [by intros _ ? ?%elem_of_nil|done].
  - apply Forall_cons in Hne as [Ho Hne]. cbn [solveTriple_loop]. unfold dfs.
    rewrite drop_0.
    pose proof (dfs_from_spec board (pick hand o) (map Some o) 0 [] true) as Hspec.
    destruct (dfs_from _ _ _ _ _ _ _) as [steps|].
    + destruct Hspec as [Hseq Hlen].
      destruct (last steps) as [s|] eqn:Elast.
      * eexists. split; [done|]. split; [done|].
        intros H. exfalso. apply (H o); [by left|done].
      * apply last_None in Elast. subst steps. unfold pick in Hlen.
        rewrite length_map in Hlen. destruct o; [done|]. cbn in Hlen. lia.
    + destruct (IH Hne) as (r & -> & Hr). exists r. split; [done|].
      rewrite Hr. split.
      * intros H o' [->|?]%elem_of_cons; auto.
      * intros H o' ?. apply H. by right.
Qed.

(** The six index orderings yield every ordering of a three-piece hand. *)
Lemma solvable_six board a b c :
  solvable rawPieces board [a; b; c]
  ↔ ∃ o, o ∈ permutations [0; 1; 2]
         ∧ placeable_seq rawPieces board (pick [a; b; c] o).
Proof.
  rewrite permutations_3. unfold solvable. split.
  - intros (order & Hperm & Hseq).
    symmetry in Hperm. apply permutations_Permutation in Hperm. cbn in Hperm.
    rewrite !elem_of_cons, elem_of_nil in Hperm.
    destruct Hperm as [->|[->|[->|[->|[->|[->|[]]]]]]].
    + exists [0; 1; 2]. split; [|done]. apply list_elem_of_In; simpl; auto 10.
    + exists [1; 0; 2]. split; [|done]. apply list_elem_of_In; simpl; auto 10.
    + exists [1; 2; 0]. split; [|done]. apply list_elem_of_In; simpl; auto 10.
    + exists [0; 2; 1]. split; [|done]. apply list_elem_of_In; simpl; auto 10.
    + exists [2; 0; 1]. split; [|done]. apply list_elem_of_In; simpl; auto 10.
    + exists [2; 1; 0]. split; [|done]. apply list_elem_of_In; simpl; auto 10.
  - intros (o & Ho & Hseq). exists (pick [a; b; c] o). split; [|done].
    rewrite !elem_of_cons, elem_of_nil in Ho.
    destruct Ho as [->|[->|[->|[->|[->|[->|[]]]]]]]; cbn;
      apply permutations_Permutation; cbn; apply list_elem_of_In; simpl; auto 10.
Qed.

Lemma six_nonempty : Forall (λ o : list Z, o ≠ []) (permutations [0; 1; 2]).
Proof. rewrite permutations_3. repeat (apply Forall_cons_2; [done|]). apply Forall_nil_2. Qed.

(** C4. For a hand of exactly 3 pieces [solveTriple] does not throw; it
    returns [null] exactly when no ordering of the 3 pieces admits a
    complete legal placement sequence.  A depth with no legal placement is
    only a [null] of the inner search, and the answer [null] is given after
    all six orderings have been tried. *)
Theorem solveTriple_null_iff (board : Z) (hand : list Z) :
  length hand = 3%nat →
  ∃ r, solveTriple rawPieces board hand = Ok r
       ∧ (r = None ↔ ¬ solvable rawPieces board hand)
       ∧ (r = None ↔
            ∀ o, o ∈ permutations [0; 1; 2] →
                 dfs rawPieces board (pick hand o) (map Some o) 0 [] true = None).
Proof.
  intros Hlen. destruct hand as [|a [|b [|c [|]]]]; try done.
  unfold solveTriple. cbn [length Nat.eqb negb].
  destruct (solveTriple_loop_spec board [a; b; c] (permutations [0; 1; 2]) six_nonempty)
    as (r & -> & Hr).
  exists r. split; [done|]. split.
  - rewrite Hr, solvable_six. split.
    + intros H (o & Ho & Hseq). by apply (H o).
    + intros H o Ho Hseq. apply H. eauto.
  - rewrite Hr. split; intros H o Ho; specialize (H o Ho).
    + unfold dfs. rewrite drop_0.
      pose proof (dfs_from_spec board (pick [a; b; c] o) (map Some o) 0 [] true) as Hs.
      destruct (dfs_from _ _ _ _ _ _ _); [by destruct Hs|done].
    + unfold dfs in H. rewrite drop_0 in H.
      pose proof (dfs_from_spec board (pick [a; b; c] o) (map Some o) 0 [] true) as Hs.
      by rewrite H in Hs.
Qed.

Lemma dfsAll_from_cons hand cap order hi sols board pieceId rest depth path :
  dfsAll_from rawPieces hand cap order hi sols board (pieceId :: rest) depth path
  = if capReached sols cap then Ok sols
    else collect_loop cap (λ p sols,
           let result := placePiece board (Placement.mask p) in
           dfsAll_from rawPieces hand cap order hi sols
             (PlacementResult.newBoard result) rest (S depth)
             (path ++ [mkStep pieceId (hi !! depth) p result]))
           (getLegalPlacements rawPieces board pieceId) sols.
Proof.
  cbn [dfsAll_from]. destruct (capReached sols cap); [done|].
  generalize (getLegalPlacements rawPieces board pieceId). intros l. revert sols.
  induction l as [|p l IH]; intros sols; [done|].
  cbn [collect_loop]. cbn zeta. destruct (capReached sols cap); [done|].
  destruct (dfsAll_from _ _ _ _ _ _ _ _ _ _); [|done]. apply IH.
Qed.

(** [dfsAll] appends to [solutions] the complete solutions below its
    search node, in enumeration order, as many as still fit under the cap. *)
Lemma dfsAll_from_take hand cap order hi sols board rest depth path :
  rest ≠ [] ∨ path ≠ [] →
  dfsAll_from rawPieces hand cap order hi sols board rest depth path
  = Ok (sols ++ take (remaining cap sols)
                  (enumerate rawPieces hand order hi board rest depth path)).
Proof.
  revert sols board depth path.
  induction rest as [|pieceId rest IH]; intros sols board depth path Hne.
  - cbn [dfsAll_from enumerate]. destruct (capReached sols cap) eqn:Ecap.
    + apply capReached_remaining in Ecap. by rewrite Ecap, take_0, app_nil_r.
    + destruct (last path) as [s|] eqn:Elast.
      * assert (remaining cap sols ≠ 0%nat) as Hr
          by (intros Hr%capReached_remaining; congruence).
        destruct (remaining cap sols) as [|n]; [done|].
        cbn [take]. by rewrite take_nil.
      * apply last_None in Elast. by destruct Hne.
  - rewrite dfsAll_from_cons. destruct (capReached sols cap) eqn:Ecap.
    + apply capReached_remaining in Ecap. by rewrite Ecap, take_0, app_nil_r.
    + cbn [enumerate].
      apply (collect_loop_take cap _
        (λ p, enumerate rawPieces hand order hi
                (PlacementResult.newBoard (placePiece board (Placement.mask p)))
                rest (S depth)
                (path ++ [mkStep pieceId (hi !! depth) p
                            (placePiece board (Placement.mask p))]))).
      intros p sols' _. cbn zeta. apply IH. right. by destruct path.
Qed.

Lemma findAllSolutions_loop_collect board hand cap orders sols :
  findAllSolutions_loop rawPieces board hand cap orders sols
  = collect_loop cap (λ o sols,
      dfsAll rawPieces hand cap sols board (pick hand o) o 0 []) orders sols.
Proof.
  revert sols. induction orders as [|o orders IH]; intros sols; [done|].
  cbn [findAllSolutions_loop collect_loop]. destruct (capReached sols cap); [done|].
  destruct (dfsAll _ _ _ _ _ _ _ _ _); [|done]. apply IH.
Qed.

(** [findAllSolutions] returns the first [maxSolutions] complete
    solutions of the enumeration. *)
Lemma findAllSolutions_take board hand cap :
  length hand = 3%nat →
  findAllSolutions rawPieces board hand cap
  = Ok (take (Z.to_nat cap) (allSolutions rawPieces board hand)).
Proof.
  intros Hlen. unfold findAllSolutions. rewrite Hlen. cbn [Nat.eqb negb].
  rewrite findAllSolutions_loop_collect, permutations_3.
  rewrite (collect_loop_take cap _
    (λ o, enumerate rawPieces hand (pick hand o) o board (pick hand o) 0 [])).
  - cbn [app]. unfold remaining. cbn [length]. by rewrite Z.sub_0_r.
  - intros o sols Ho. unfold dfsAll. rewrite drop_0. apply dfsAll_from_take. left.
    rewrite !elem_of_cons, elem_of_nil in Ho.
    by destruct Ho as [->|[->|[->|[->|[->|[->|[]]]]]]].
Qed.

Lemma enumerate_nil_iff hand order hi board rest depth path :
  rest ≠ [] ∨ path ≠ [] →
  enumerate rawPieces hand order hi board rest depth path = []
  ↔ ¬ placeable_seq rawPieces board rest.
Proof.
  revert board depth path.
  induction rest as [|pieceId rest IH]; intros board depth path Hne.
  - cbn [enumerate]. destruct (last path) eqn:Elast.
    + split; [done|]. intros H. destruct H. constructor.
    + apply last_None in Elast. by destruct Hne.
  - cbn [enumerate]. rewrite flat_map_nil_iff, placeable_seq_cons_iff. split.
    + intros H (p & Hp & Hseq). specialize (H p Hp). cbn zeta in H.
      apply IH in H; [done|]. right. by destruct path.
    + intros H p Hp. cbn zeta. apply IH; [right; by destruct path|].
      intros Hseq. apply H. eauto.
Qed.

Lemma allSolutions_nil_iff board hand :
  length hand = 3%nat →
  allSolutions rawPieces board hand = [] ↔ ¬ solvable rawPieces board hand.
Proof.
  intros Hlen. destruct hand as [|a [|b [|c [|]]]]; try done.
  unfold allSolutions. rewrite flat_map_nil_iff, solvable_six, permutations_3. split.
  - intros H (o & Ho & Hseq). specialize (H o Ho). cbn zeta in H.
    apply enumerate_nil_iff in H; [done|]. left.
    rewrite !elem_of_cons, elem_of_nil in Ho.
    by destruct Ho as [->|[->|[->|[->|[->|[->|[]]]]]]].
  - intros H o Ho. cbn zeta. apply enumerate_nil_iff.
    + left. rewrite !elem_of_cons, elem_of_nil in Ho.
      by destruct Ho as [->|[->|[->|[->|[->|[->|[]]]]]]].
    + intros Hseq. apply H. eauto.
Qed.

(** C3, as amended. For every board, hand of exactly 3 pieces and cap:
    [findAllSolutions] collects the first [maxSolutions] complete
    solutions of the ordering-then-anchor enumeration; [findBestSolution]
    returns the first collected solution of maximum mobility; it returns
    [null] exactly when nothing was collected, that is when no complete
    solution exists or the cap is below 1. *)
Theorem findBestSolution_spec (board : Z) (hand : list Z) (maxSolutions : Z) :
  length hand = 3%nat →
  let collected := take (Z.to_nat maxSolutions) (allSolutions rawPieces board hand) in
  findAllSolutions rawPieces board hand maxSolutions = Ok collected
  ∧ ∃ r, findBestSolution rawPieces board hand maxSolutions = Ok r
         ∧ (∀ s, r = Some s → first_max_mobility collected s)
         ∧ (r = None ↔ collected = [])
         ∧ (r = None ↔ maxSolutions ≤ 0 ∨ ¬ solvable rawPieces board hand)
         ∧ (1 ≤ maxSolutions → (r = None ↔ ¬ solvable rawPieces board hand)).
Proof.
  intros Hlen. cbn zeta.
  pose proof (findAllSolutions_take board hand maxSolutions Hlen) as Hall.
  split; [done|]. unfold findBestSolution. rewrite Hall. cbn [bindR].
  set (collected := take (Z.to_nat maxSolutions) (allSolutions rawPieces board hand)).
  assert (Hnil : collected = [] ↔ maxSolutions ≤ 0 ∨ ¬ solvable rawPieces board hand).
  { unfold collected. rewrite <- (allSolutions_nil_iff board hand Hlen). split.
    - intros [?|?]%take_nil_inv; [left; lia|by right].
    - intros [?| ->]; [|by rewrite take_nil].
      by replace (Z.to_nat maxSolutions) with 0%nat by lia. }
  destruct collected as [|s0 l] eqn:Ecol.
  - exists None. cbn [length Nat.eqb]. split; [done|]. split; [done|].
    split; [done|]. split.
    + split; [intros _; by apply Hnil|done].
    + intros Hcap. split; [|done]. intros _.
      destruct (proj1 Hnil eq_refl) as [?|?]; [lia|done].
  - destruct (js_sort_head (s0 :: l)) as (s & Hhead & Hfirst); [done|].
    exists (Some s). cbn [length Nat.eqb]. split; [by rewrite Hhead|].
    split; [by intros ? [= <-]|]. split; [done|]. split.
    + split; [done|]. by intros ?%Hnil.
    + intros _. split; [done|]. intros Hns. by assert (s0 :: l = []) by (apply Hnil; by right).
Qed.

(** C10. For a hand whose length is not 3, [solveTriple],
    [findAllSolutions], [findBestSolution] and [hasSolution] throw
    ("Hand must contain exactly 3 pieces"); [solvePartial] throws for no
    list of remaining pieces, shorter than 3 or not. *)
Theorem hand_length_guard (board : Z) (hand : list Z) (maxSolutions : Z) :
  length hand ≠ 3%nat →
  solveTriple rawPieces board hand = Throw HandMustContain3
  ∧ findAllSolutions rawPieces board hand maxSolutions = Throw HandMustContain3
  ∧ findBestSolution rawPieces board hand maxSolutions = Throw HandMustContain3
  ∧ hasSolution rawPieces board hand = Throw HandMustContain3
  ∧ ∀ handIndices, ∃ r, solvePartial rawPieces board hand handIndices = Ok r.
Proof.
  intros Hlen.
  assert (negb (length hand =? 3)%nat = true) as Hg.
  { apply negb_true_iff, Nat.eqb_neq. exact Hlen. }
  unfold hasSolution, findBestSolution, solveTriple, findAllSolutions. rewrite Hg.
  repeat split. intros handIndices. unfold solvePartial.
  destruct (length hand =? 0)%nat; eauto.
Qed.

End Catalog.

Lemma solveTriple_null_iff_witness :
  ∃ r, solveTriple catalog 0 [1; 1; 2] = Ok r
       ∧ (r = None ↔ ¬ solvable catalog 0 [1; 1; 2])
       ∧ (r = None ↔
            ∀ o, o ∈ permutations [0; 1; 2] →
                 dfs catalog 0 (pick [1; 1; 2] o) (map Some o) 0 [] true = None).
Proof. apply (solveTriple_null_iff catalog 0 [1; 1; 2]). reflexivity. Defined.

Lemma findBestSolution_spec_witness :
  let cap := DEFAULT_MAX_SOLUTIONS in
  let collected := take (Z.to_nat cap) (allSolutions catalog 0 [1; 1; 2]) in
  findAllSolutions catalog 0 [1; 1; 2] cap = Ok collected
  ∧ ∃ r, findBestSolution catalog 0 [1; 1; 2] cap = Ok r
         ∧ (∀ s, r = Some s → first_max_mobility collected s)
         ∧ (r = None ↔ collected = [])
         ∧ (r = None ↔ cap ≤ 0 ∨ ¬ solvable catalog 0 [1; 1; 2])
         ∧ (1 ≤ cap → (r = None ↔ ¬ solvable catalog 0 [1; 1; 2])).
Proof.
  apply (findBestSolution_spec catalog 0 [1; 1; 2] DEFAULT_MAX_SOLUTIONS). reflexivity.
Defined.

Lemma hand_length_guard_witness :
  solveTriple catalog 0 [1; 2] = Throw HandMustContain3
  ∧ findAllSolutions catalog 0 [1; 2] 200 = Throw HandMustContain3
  ∧ findBestSolution catalog 0 [1; 2] 200 = Throw HandMustContain3
  ∧ hasSolution catalog 0 [1; 2] = Throw HandMustContain3
  ∧ ∀ handIndices, ∃ r, solvePartial catalog 0 [1; 2] handIndices = Ok r.
Proof. apply (hand_length_guard catalog 0 [1; 2] 200). simpl. lia. Defined.

(** C3 as stated fails at a cap of 0: the hand of three single-cell
    pieces can be placed on the empty board, and [findBestSolution]
    returns [null]. *)
Lemma findBestSolution_cap_0 :
  length [1; 1; 1] = 3%nat
  ∧ solvable catalog 0 [1; 1; 1]
  ∧ findBestSolution catalog 0 [1; 1; 1] 0 = Ok None.
Proof.
  split; [reflexivity|]. split; [|vm_compute; reflexivity].
  exists [1; 1; 1]. split; [done|].
  apply (placeable_cons catalog 0 1 single 0 0); [vm_compute; reflexivity|reflexivity|].
  apply (placeable_cons catalog _ 1 single 1 0); [vm_compute; reflexivity|reflexivity|].
  apply (placeable_cons catalog _ 1 single 2 0); [vm_compute; reflexivity|reflexivity|].
  constructor.
Qed.

End SolverFacts.
Module BitboardLaws.
Import Bitboard Spec BitboardFacts.

(** X1. [indexToCoord] undoes [coordToIndex] on every cell with
    [0 <= x < 8] and [0 <= y], and [coordToIndex] undoes [indexToCoord] on
    every index that is not negative; an index is on the board exactly
    when its coordinates are in bounds. *)
Theorem coord_index_roundtrip (x y idx : Z) :
  (0 ≤ x < 8 → 0 ≤ y → indexToCoord (coordToIndex x y) = (x, y))
  ∧ (0 ≤ idx →
       coordToIndex (indexToCoord idx).1 (indexToCoord idx).2 = idx
       ∧ (isInBounds (indexToCoord idx).1 (indexToCoord idx).2 = true ↔ idx < 64)).
Proof.
  unfold indexToCoord, coordToIndex, isInBounds, BOARD_SIZE. cbn [fst snd]. split.
  - intros Hx Hy. rewrite Z.rem_mod_nonneg by lia. f_equal.
    + rewrite Z.add_comm, Z.mod_add by lia. apply Z.mod_small. lia.
    + rewrite Z.add_comm, Z.div_add by lia. rewrite Z.div_small by lia. lia.
  - intros Hidx. rewrite Z.rem_mod_nonneg by lia.
    pose proof (Z.mod_pos_bound idx 8 ltac:(lia)).
    pose proof (Z.div_mod idx 8 ltac:(lia)).
    split; [lia|]. rewrite !andb_true_iff, !Z.leb_le, !Z.ltb_lt.
    split; [intros; lia|]. intros Hlt.
    assert (0 ≤ idx / 8) by (apply Z.div_pos; lia).
    assert (idx / 8 < 8) by (apply Z.div_lt_upper_bound; lia).
    repeat split; lia.
Qed.

Lemma coord_index_roundtrip_witness :
  indexToCoord (coordToIndex 5 3) = (5, 3)
  ∧ coordToIndex (indexToCoord 29).1 (indexToCoord 29).2 = 29.
Proof.
  destruct (coord_index_roundtrip 5 3 29) as [H1 H2].
  split; [apply H1; lia|apply H2; lia].
Defined.

Lemma land_bit b k :
  0 ≤ k → (Z.land b (Z.shiftl 1 k) =? 0) = negb (Z.testbit b k).
Proof.
  intros Hk. destruct (Z.testbit b k) eqn:E; cbn [negb].
  - apply Z.eqb_neq. intros H0.
    assert (Z.testbit (Z.land b (Z.shiftl 1 k)) k = true)
      by (rewrite Z.land_spec, testbit_shiftl_1, E by lia; by rewrite bool_decide_eq_true_2).
    rewrite H0, Z.bits_0 in H. done.
  - apply Z.eqb_eq. apply Z.bits_inj'. intros i Hi.
    rewrite Z.land_spec, testbit_shiftl_1, Z.bits_0 by lia.
    case_bool_decide; subst; [by rewrite E|by rewrite andb_false_r].
Qed.

Lemma getBit_testbit b x y :
  0 ≤ coordToIndex x y → getBit b x y = Z.testbit b (coordToIndex x y).
Proof. intros Hk. unfold getBit. rewrite land_bit by done. apply negb_involutive. Qed.

Lemma shiftl_1_neg k : k < 0 → Z.shiftl 1 k = 0.
Proof.
  intros Hk. apply Z.bits_inj'. intros i Hi.
  rewrite Z.shiftl_spec, Z.bits_0 by lia.
  apply (Z.bits_above_log2 1); simpl; lia.
Qed.

(** X2. Reading a cell after writing it: on a cell of index at least 0,
    [getBit] after [setBit] is true, after [clearBit] false, after
    [toggleBit] the negation; the three writes leave every other cell as it
    was; [toggleBit] twice is the identity.  On a cell of negative index
    the three writes change nothing and [getBit] is false. *)
Theorem bit_read_after_write (b x y x' y' : Z) :
  (0 ≤ coordToIndex x y →
     getBit (setBit b x y) x y = true
     ∧ getBit (clearBit b x y) x y = false
     ∧ getBit (toggleBit b x y) x y = negb (getBit b x y)
     ∧ (0 ≤ coordToIndex x' y' → coordToIndex x' y' ≠ coordToIndex x y →
          getBit (setBit b x y) x' y' = getBit b x' y'
          ∧ getBit (clearBit b x y) x' y' = getBit b x' y'
          ∧ getBit (toggleBit b x y) x' y' = getBit b x' y'))
  ∧ toggleBit (toggleBit b x y) x y = b
  ∧ (coordToIndex x y < 0 →
       setBit b x y = b ∧ clearBit b x y = b ∧ toggleBit b x y = b
       ∧ getBit b x y = false).
Proof.
  split; [|split].
  - intros Hk. rewrite !getBit_testbit by done. unfold setBit, clearBit, toggleBit.
    rewrite Z.lor_spec, Z.land_spec, Z.lnot_spec, Z.lxor_spec, !testbit_shiftl_1 by done.
    rewrite bool_decide_eq_true_2 by done.
    split; [by rewrite orb_true_r|]. split; [by rewrite andb_false_r|].
    split; [by destruct (Z.testbit b _)|].
    intros Hk' Hne. rewrite !getBit_testbit by done.
    rewrite Z.lor_spec, Z.land_spec, Z.lnot_spec, Z.lxor_spec, !testbit_shiftl_1 by done.
    rewrite bool_decide_eq_false_2 by done. cbn [negb].
    by rewrite orb_false_r, andb_true_r, xorb_false_r.
  - unfold toggleBit. rewrite Z.lxor_assoc, Z.lxor_nilpotent. apply Z.lxor_0_r.
  - intros Hk. unfold setBit, clearBit, toggleBit, getBit. rewrite shiftl_1_neg by done.
    rewrite Z.lor_0_r, Z.lxor_0_r, Z.land_0_r. change (Z.lnot 0) with (-1).
    by rewrite Z.land_m1_r.
Qed.

Lemma bit_read_after_write_witness :
  getBit (setBit 5 3 2) 3 2 = true
  ∧ getBit (clearBit 5 3 2) 3 2 = false
  ∧ getBit (setBit 5 3 2) 0 0 = getBit 5 0 0.
Proof.
  destruct (bit_read_after_write 5 3 2 0 0) as [H _].
  destruct H as (H1 & H2 & _ & H3); [vm_compute; discriminate|].
  destruct H3 as (H3 & _); [vm_compute; discriminate|vm_compute; discriminate|].
  repeat split; assumption.
Defined.

Lemma land_eq_iff b m :
  Z.land b m = m ↔ ∀ i, 0 ≤ i → Z.testbit m i = true → Z.testbit b i = true.
Proof.
  split.
  - intros H i Hi Hm. rewrite <- H, Z.land_spec in Hm. by apply andb_true_iff in Hm as [? _].
  - intros H. apply Z.bits_inj'. intros i Hi. rewrite Z.land_spec.
    destruct (Z.testbit m i) eqn:E; [|apply andb_false_r].
    by rewrite (H i Hi E).
Qed.

Lemma foldl_lor_testbit {A : Type} (g : A → Z) (l : list A) (m0 i : Z) :
  Z.testbit (foldl (λ m a, Z.lor m (g a)) m0 l) i
  = Z.testbit m0 i || existsb (λ a, Z.testbit (g a) i) l.
Proof.
  revert m0. induction l as [|a l IH]; intros m0; cbn [foldl existsb].
  - by rewrite orb_false_r.
  - rewrite IH, Z.lor_spec. by rewrite orb_assoc.
Qed.

Lemma existsb_seqZ (P : Z → bool) m n :
  existsb P (seqZ m n) = true ↔ ∃ k, m ≤ k < m + n ∧ P k = true.
Proof.
  rewrite existsb_exists. split.
  - intros (k & Hk%list_elem_of_In%elem_of_seqZ & HP). eauto.
  - intros (k & Hk & HP). exists k. split; [|done]. by apply list_elem_of_In, elem_of_seqZ.
Qed.

Lemma lineMask_ROW y : 0 ≤ y < 8 → lineMask ROW_MASKS y = rowMask y.
Proof.
  intros Hy. assert (y = 0 ∨ y = 1 ∨ y = 2 ∨ y = 3 ∨ y = 4 ∨ y = 5 ∨ y = 6 ∨ y = 7)
    as Hc by lia.
  destruct Hc as [->|[->|[->|[->|[->|[->|[->| ->]]]]]]]; reflexivity.
Qed.

Lemma lineMask_COL x : 0 ≤ x < 8 → lineMask COL_MASKS x = colMask x.
Proof.
  intros Hx. assert (x = 0 ∨ x = 1 ∨ x = 2 ∨ x = 3 ∨ x = 4 ∨ x = 5 ∨ x = 6 ∨ x = 7)
    as Hc by lia.
  destruct Hc as [->|[->|[->|[->|[->|[->|[->| ->]]]]]]]; reflexivity.
Qed.

Lemma lineMask_out tbl i : length tbl = 8%nat → ¬ 0 ≤ i < 8 → lineMask tbl i = 0.
Proof.
  intros Hlen Hi. unfold lineMask. destruct (0 <=? i) eqn:E; [|done].
  rewrite lookup_ge_None_2; [done|]. rewrite Hlen. lia.
Qed.

(** The bits of a row mask and of a column mask. *)
Lemma testbit_ROW y i :
  Z.testbit (lineMask ROW_MASKS y) i = true ↔ 0 ≤ y < 8 ∧ 8 * y ≤ i < 8 * y + 8.
Proof.
  destruct (decide (0 ≤ y < 8)) as [Hy|Hy].
  - rewrite lineMask_ROW by done. unfold rowMask, BOARD_SIZE.
    rewrite foldl_lor_testbit, Z.bits_0, orb_false_l, existsb_seqZ. split.
    + intros (x & Hx & Hb). rewrite testbit_shiftl_1 in Hb by lia.
      apply bool_decide_eq_true in Hb. lia.
    + intros [_ Hi]. exists (i - 8 * y). split; [lia|].
      rewrite testbit_shiftl_1 by lia. apply bool_decide_eq_true. lia.
  - rewrite lineMask_out by done. rewrite Z.bits_0. split; [done|tauto].
Qed.

Lemma testbit_COL x i :
  Z.testbit (lineMask COL_MASKS x) i = true
  ↔ 0 ≤ x < 8 ∧ ∃ y, 0 ≤ y < 8 ∧ i = 8 * y + x.
Proof.
  destruct (decide (0 ≤ x < 8)) as [Hx|Hx].
  - rewrite lineMask_COL by done. unfold colMask, BOARD_SIZE.
    rewrite foldl_lor_testbit, Z.bits_0, orb_false_l, existsb_seqZ. split.
    + intros (y & Hy & Hb). rewrite testbit_shiftl_1 in Hb by lia.
      apply bool_decide_eq_true in Hb. split; [done|]. exists y. lia.
    + intros [_ (y & Hy & ->)]. exists y. split; [lia|].
      rewrite testbit_shiftl_1 by lia. apply bool_decide_eq_true. lia.
  - rewrite lineMask_out by done. rewrite Z.bits_0. split; [done|tauto].
Qed.

(** X3. A row is reported filled exactly when its eight cells are set, a
    column likewise: [getFilledRows] and [getFilledCols] list exactly the
    full lines of the board, with indices in 0..7. *)
Theorem filled_lines_spec (board : Z) (k : Z) :
  (k ∈ getFilledRows board
     ↔ 0 ≤ k < 8 ∧ ∀ x, 0 ≤ x < 8 → getBit board x k = true)
  ∧ (k ∈ getFilledCols board
     ↔ 0 ≤ k < 8 ∧ ∀ y, 0 ≤ y < 8 → getBit board k y = true).
Proof.
  unfold getFilledRows, getFilledCols, isRowFilled, isColFilled, BOARD_SIZE.
  rewrite !list_elem_of_filter, !elem_of_seqZ, !Z.eqb_eq, !land_eq_iff. split.
  - split.
    + intros [H Hk]. split; [lia|]. intros x Hx.
      rewrite getBit_testbit by (unfold coordToIndex, BOARD_SIZE; lia).
      unfold coordToIndex, BOARD_SIZE. apply H; [lia|]. apply testbit_ROW. lia.
    + intros [Hk H]. split; [|lia]. intros i Hi (_ & Hr)%testbit_ROW.
      specialize (H (i - 8 * k) ltac:(lia)).
      rewrite getBit_testbit in H by (unfold coordToIndex, BOARD_SIZE; lia).
      unfold coordToIndex, BOARD_SIZE in H. by replace (k * 8 + (i - 8 * k)) with i in H by lia.
  - split.
    + intros [H Hk]. split; [lia|]. intros y Hy.
      rewrite getBit_testbit by (unfold coordToIndex, BOARD_SIZE; lia).
      unfold coordToIndex, BOARD_SIZE. apply H; [lia|]. apply testbit_COL.
      split; [lia|]. exists y. lia.
    + intros [Hk H]. split; [|lia]. intros i Hi (_ & y & Hy & ->)%testbit_COL.
      specialize (H y Hy).
      rewrite getBit_testbit in H by (unfold coordToIndex, BOARD_SIZE; lia).
      unfold coordToIndex, BOARD_SIZE in H. by replace (8 * y + k) with (y * 8 + k) by lia.
Qed.

Lemma clearLines_testbit board rows cols i :
  0 ≤ i →
  Z.testbit (clearLines board rows cols) i
  = Z.testbit board i && negb (Z.testbit (clearMask rows cols) i).
Proof. intros Hi. unfold clearLines, clearMask. by rewrite Z.land_spec, Z.lnot_spec. Qed.

Lemma clearMask_testbit rows cols i :
  Z.testbit (clearMask rows cols) i = true
  ↔ (∃ y, y ∈ rows ∧ 0 ≤ y < 8 ∧ 8 * y ≤ i < 8 * y + 8)
    ∨ (∃ x, x ∈ cols ∧ 0 ≤ x < 8 ∧ ∃ y, 0 ≤ y < 8 ∧ i = 8 * y + x).
Proof.
  unfold clearMask. rewrite !foldl_lor_testbit, Z.bits_0, orb_false_l, orb_true_iff.
  rewrite !existsb_exists. split.
  - intros [(y & Hy%list_elem_of_In & Hb%testbit_ROW)|(x & Hx%list_elem_of_In & Hb%testbit_COL)];
      [left|right]; eauto.
  - intros [(y & Hy%list_elem_of_In & Hb)|(x & Hx%list_elem_of_In & Hb)]; [left|right].
    + exists y. split; [done|]. by apply testbit_ROW.
    + exists x. split; [done|]. by apply testbit_COL.
Qed.

(** X4. [clearLines] empties exactly the cells of the listed rows and
    columns: a cell of the board survives when it was set and neither its
    row nor its column is listed; with nothing listed the board is
    returned as it is. *)
Theorem clearLines_cell (board : Z) (rows cols : list Z) (x y : Z) :
  clearLines board [] [] = board
  ∧ (0 ≤ x < 8 → 0 ≤ y < 8 →
       getBit (clearLines board rows cols) x y
       = getBit board x y && negb (bool_decide (y ∈ rows)) && negb (bool_decide (x ∈ cols))).
Proof.
  split.
  - unfold clearLines. cbn [foldl]. change (Z.lnot 0) with (-1). apply Z.land_m1_r.
  - intros Hx Hy.
    assert (Hk : 0 ≤ coordToIndex x y) by (unfold coordToIndex, BOARD_SIZE; lia).
    rewrite !getBit_testbit, clearLines_testbit by done. rewrite <- andb_assoc. f_equal.
    rewrite <- negb_orb. f_equal. unfold coordToIndex, BOARD_SIZE in *.
    apply eq_true_iff_eq. rewrite clearMask_testbit, orb_true_iff, !bool_decide_eq_true.
    split.
    + intros [(y' & Hin & Hy' & Hr)|(x' & Hin & Hx' & y' & Hy' & Heq)].
      * left. by replace y with y' by lia.
      * right. by replace x with x' by lia.
    + intros [Hin|Hin]; [left; exists y|right; exists x]; split; try done.
      * lia.
      * split; [lia|]. exists y. lia.
Qed.

Lemma clearLines_cell_witness :
  getBit (clearLines 255 [0] [3]) 3 0
  = getBit 255 3 0 && negb (bool_decide (0 ∈ [0])) && negb (bool_decide (3 ∈ [3])).
Proof. apply (clearLines_cell 255 [0] [3] 3 0); lia. Defined.

Import GameLogic.

(** X5. The board [placePiece] returns has no full row and no full
    column, whatever the board and the mask. *)
Theorem placePiece_no_full_line (board pieceMask : Z) :
  getFilledRows (PlacementResult.newBoard (placePiece board pieceMask)) = []
  ∧ getFilledCols (PlacementResult.newBoard (placePiece board pieceMask)) = [].
Proof.
  unfold placePiece. cbn [PlacementResult.newBoard].
  set (bb := Z.lor board pieceMask).
  split; apply elem_of_nil_inv; intros k Hk.
  - apply filled_lines_spec in Hk as [Hk Hall].
    assert (Hin : k ∈ getFilledRows bb).
    { apply filled_lines_spec. split; [done|]. intros x Hx. specialize (Hall x Hx).
      rewrite (proj2 (clearLines_cell bb _ _ x k)) in Hall by done.
      by apply andb_true_iff in Hall as [[? _]%andb_true_iff _]. }
    specialize (Hall 0 ltac:(lia)).
    rewrite (proj2 (clearLines_cell bb _ _ 0 k)) in Hall by lia.
    rewrite (bool_decide_eq_true_2 _ Hin) in Hall. by rewrite andb_false_r in Hall.
  - apply filled_lines_spec in Hk as [Hk Hall].
    assert (Hin : k ∈ getFilledCols bb).
    { apply filled_lines_spec. split; [done|]. intros y Hy. specialize (Hall y Hy).
      rewrite (proj2 (clearLines_cell bb _ _ k y)) in Hall by done.
      by apply andb_true_iff in Hall as [[? _]%andb_true_iff _]. }
    specialize (Hall 0 ltac:(lia)).
    rewrite (proj2 (clearLines_cell bb _ _ k 0)) in Hall by lia.
    rewrite (bool_decide_eq_true_2 _ Hin) in Hall. by rewrite andb_false_r in Hall.
Qed.

Lemma bounded_bits (n a : Z) :
  0 ≤ n → 0 ≤ a → (∀ i, n ≤ i → Z.testbit a i = false) → a < 2 ^ n.
Proof.
  intros Hn Ha H. destruct (decide (a = 0)) as [->|]; [lia|].
  apply Z.log2_lt_pow2; [lia|].
  destruct (Z_lt_le_dec (Z.log2 a) n) as [|Hge]; [done|].
  specialize (H (Z.log2 a) Hge). rewrite Z.bit_log2 in H by lia. done.
Qed.

Lemma popsum_split n a x y :
  (∀ i, 0 ≤ i → Z.testbit a i = Z.testbit x i || Z.testbit y i) →
  (∀ i, 0 ≤ i → Z.testbit x i && Z.testbit y i = false) →
  popsum n a = popsum n x + popsum n y.
Proof.
  revert a x y. induction n as [|n IH]; intros a x y Hor Hdis; [done|].
  cbn [popsum]. rewrite (IH (Z.div2 a) (Z.div2 x) (Z.div2 y)).
  - rewrite <- !Z.bit0_odd. rewrite (Hor 0) by lia. specialize (Hdis 0 ltac:(lia)).
    destruct (Z.testbit x 0), (Z.testbit y 0); simpl in *; try done; lia.
  - intros i Hi. rewrite !Z.div2_spec, !Z.shiftr_spec by lia. apply Hor. lia.
  - intros i Hi. rewrite !Z.div2_spec, !Z.shiftr_spec by lia. apply Hdis. lia.
Qed.

Lemma filter_ext_elem {A : Type} (P Q : A → Prop) `{!∀ x, Decision (P x)}
    `{!∀ x, Decision (Q x)} (l : list A) :
  (∀ x, x ∈ l → (P x ↔ Q x)) → filter P l = filter Q l.
Proof.
  induction l as [|a l IH]; intros Hext; [done|].
  rewrite !filter_cons. rewrite IH by (intros; apply Hext; by right).
  pose proof (Hext a ltac:(by left)). repeat case_decide; tauto || done.
Qed.

Lemma foldl_lor_nonneg {A : Type} (g : A → Z) (l : list A) (m0 : Z) :
  0 ≤ m0 → (∀ a, a ∈ l → 0 ≤ g a) → 0 ≤ foldl (λ m a, Z.lor m (g a)) m0 l.
Proof.
  revert m0. induction l as [|a l IH]; intros m0 Hm Hg; [done|]. cbn [foldl].
  apply IH; [|intros; apply Hg; by right]. apply Z.lor_nonneg. split; [done|].
  apply Hg. by left.
Qed.

(** Every selection of lines that [filter] makes from [0 .. 7] is the
    selection of some 8-bit pattern. *)
Lemma filter_as_linesOf (P : Z → Prop) `{!∀ x, Decision (P x)} :
  ∃ r, r ∈ seqZ 0 256 ∧ filter P (seqZ 0 8) = linesOf r.
Proof.
  set (L := filter P (seqZ 0 8)).
  set (r := foldl (λ m k, Z.lor m (Z.shiftl 1 k)) 0 L).
  assert (HL : ∀ k, k ∈ L → 0 ≤ k < 8)
    by (intros k [_ Hk%elem_of_seqZ]%list_elem_of_filter; lia).
  assert (Hbit : ∀ i, Z.testbit r i = true ↔ i ∈ L).
  { intros i. unfold r. rewrite foldl_lor_testbit, Z.bits_0, orb_false_l, existsb_exists.
    split.
    - intros (k & Hk%list_elem_of_In & Hb). rewrite testbit_shiftl_1 in Hb
        by (apply HL in Hk; lia). by apply bool_decide_eq_true in Hb as ->.
    - intros Hi. exists i. split; [by apply list_elem_of_In|].
      rewrite testbit_shiftl_1 by (apply HL in Hi; lia). by apply bool_decide_eq_true. }
  assert (Hr0 : 0 ≤ r).
  { unfold r. apply foldl_lor_nonneg; [done|]. intros k Hk%HL.
    apply Z.shiftl_nonneg. lia. }
  exists r. split.
  - apply elem_of_seqZ. split; [done|].
    apply (bounded_bits 8); [lia|done|]. intros i Hi.
    destruct (Z.testbit r i) eqn:E; [|done]. apply Hbit, HL in E. lia.
  - unfold linesOf. apply filter_ext_elem. intros k Hk. rewrite Hbit. unfold L.
    rewrite list_elem_of_filter. tauto.
Qed.

Lemma clearMask_count_all :
  forallb (λ r, forallb (clearMask_count_ok r) (seqZ 0 256)) (seqZ 0 256) = true.
Proof. vm_compute. reflexivity. Qed.

Lemma clearMask_count board :
  countBits (clearMask (getFilledRows board) (getFilledCols board))
  = Some (8 * Z.of_nat (length (getFilledRows board))
          + 8 * Z.of_nat (length (getFilledCols board))
          - Z.of_nat (length (getFilledRows board))
            * Z.of_nat (length (getFilledCols board))).
Proof.
  unfold getFilledRows, getFilledCols. change BOARD_SIZE with 8.
  destruct (filter_as_linesOf (λ y, isRowFilled board y = true)) as (r & Hr & ->).
  destruct (filter_as_linesOf (λ x, isColFilled board x = true)) as (c & Hc & ->).
  pose proof clearMask_count_all as H. rewrite forallb_forall in H.
  specialize (H r ltac:(by apply list_elem_of_In)). rewrite forallb_forall in H.
  specialize (H c ltac:(by apply list_elem_of_In)).
  by apply bool_decide_eq_true in H.
Qed.

(** X6. On boards, [cellsCleared] is the number of cells the clearing
    removed: the popcount of the board with the piece on it minus the
    popcount of the board returned. *)
Theorem placePiece_cellsCleared_popcount (b m : Z) :
  is_board b → is_board m →
  let r := placePiece b m in
  ∃ n k, countBits (PlacementResult.boardBeforeClear r) = Some n
         ∧ countBits (PlacementResult.newBoard r) = Some k
         ∧ PlacementResult.cellsCleared r = n - k.
Proof.
  intros Hb Hm. cbn zeta. unfold placePiece.
  cbn [PlacementResult.boardBeforeClear PlacementResult.newBoard
       PlacementResult.cellsCleared].
  set (bb := Z.lor b m). set (R := getFilledRows bb). set (C := getFilledCols bb).
  assert (Hbb : is_board bb).
  { apply is_board_bits in Hb as [? Hb], Hm as [? Hm]. apply is_board_bits. split.
    - by apply Z.lor_nonneg.
    - intros i Hi. unfold bb. by rewrite Z.lor_spec, Hb, Hm. }
  pose proof (clearMask_count bb) as Hcm. fold R C in Hcm.
  set (cm := clearMask R C) in *.
  assert (Hsub : ∀ i, Z.testbit cm i = true → 0 ≤ i < 64 ∧ Z.testbit bb i = true).
  { intros i [(y & Hy & Hy8 & Hi)|(x & Hx & Hx8 & y & Hy & ->)]%clearMask_testbit.
    - split; [lia|]. apply filled_lines_spec in Hy as [_ Hy].
      specialize (Hy (i - 8 * y) ltac:(lia)). rewrite getBit_testbit in Hy
        by (unfold coordToIndex, BOARD_SIZE; lia).
      unfold coordToIndex, BOARD_SIZE in Hy. by replace (y * 8 + (i - 8 * y)) with i in Hy by lia.
    - split; [lia|]. apply filled_lines_spec in Hx as [_ Hx].
      specialize (Hx y Hy). rewrite getBit_testbit in Hx
        by (unfold coordToIndex, BOARD_SIZE; lia).
      unfold coordToIndex, BOARD_SIZE in Hx. by replace (8 * y + x) with (y * 8 + x) by lia. }
  assert (Hcmb : is_board cm).
  { apply is_board_bits. split.
    - destruct cm; [lia|lia|discriminate Hcm].
    - intros i Hi. destruct (Z.testbit cm i) eqn:E; [|done]. apply Hsub in E. lia. }
  set (nb := clearLines bb R C).
  assert (Hnb : is_board nb).
  { apply is_board_bits. apply is_board_bits in Hbb as [? Hbb]. split.
    - unfold nb, clearLines. apply Z.land_nonneg. by left.
    - intros i Hi. unfold nb. rewrite clearLines_testbit by lia. by rewrite Hbb. }
  exists (popsum 64 bb), (popsum 64 nb).
  split; [by apply (countBits_popsum 64)|]. split; [by apply (countBits_popsum 64)|].
  rewrite (countBits_popsum 64) in Hcm by done. apply (inj Some) in Hcm.
  rewrite (popsum_split 64 bb nb cm).
  - rewrite Hcm. change BOARD_SIZE with 8.
    destruct (0 <? _) eqn:E1; destruct (0 <? Z.of_nat (length C)) eqn:E2; cbn [orb]; lia.
  - intros i Hi. unfold nb. rewrite clearLines_testbit by done. fold cm.
    destruct (Z.testbit cm i) eqn:E; [|by rewrite andb_true_r, orb_false_r].
    apply Hsub in E as [_ ->]. done.
  - intros i Hi. unfold nb. rewrite clearLines_testbit by done. fold cm.
    by destruct (Z.testbit bb i), (Z.testbit cm i).
Qed.

Lemma placePiece_cellsCleared_popcount_witness :
  let r := placePiece 127 128 in
  ∃ n k, countBits (PlacementResult.boardBeforeClear r) = Some n
         ∧ countBits (PlacementResult.newBoard r) = Some k
         ∧ PlacementResult.cellsCleared r = n - k.
Proof. apply (placePiece_cellsCleared_popcount 127 128); unfold is_board; lia. Defined.

Lemma arrayToBoard_testbit arr i :
  Z.testbit (arrayToBoard arr) i = true
  ↔ ∃ x y, 0 ≤ x < 8 ∧ 0 ≤ y < 8 ∧ i = 8 * y + x ∧ cellTruthy arr x y = true.
Proof.
  unfold arrayToBoard, BOARD_SIZE.
  assert (Hin : ∀ y b xs,
            (∀ x, x ∈ xs → 0 ≤ y * 8 + x) →
            Z.testbit
              (foldl (λ board x,
                 match js_index arr y ≫= (λ row, js_index row x) with
                 | Some v => if v =? 0 then board else setBit board x y
                 | None => board
                 end) b xs) i
            = Z.testbit b i
              || existsb (λ x, cellTruthy arr x y && bool_decide (i = y * 8 + x)) xs).
  { intros y b xs. revert b. induction xs as [|x xs IH]; intros b Hxs; cbn [foldl existsb].
    - by rewrite orb_false_r.
    - rewrite IH by (intros; apply Hxs; by right). unfold cellTruthy.
      destruct (js_index arr y ≫= _) as [v|]; [|done].
      destruct (v =? 0); cbn [negb andb orb]; [done|].
      unfold setBit, coordToIndex, BOARD_SIZE.
      rewrite Z.lor_spec, testbit_shiftl_1 by (apply Hxs; by left).
      by rewrite orb_assoc. }
  assert (Hout : ∀ b ys,
            (∀ y, y ∈ ys → 0 ≤ y) →
            Z.testbit
              (foldl (λ board y,
                 foldl (λ board x,
                   match js_index arr y ≫= (λ row, js_index row x) with
                   | Some v => if v =? 0 then board else setBit board x y
                   | None => board
                   end) board (seqZ 0 8)) b ys) i
            = Z.testbit b i
              || existsb (λ y, existsb (λ x, cellTruthy arr x y
                                               && bool_decide (i = y * 8 + x)) (seqZ 0 8)) ys).
  { intros b ys. revert b. induction ys as [|y ys IH]; intros b Hys; cbn [foldl existsb].
    - by rewrite orb_false_r.
    - rewrite IH by (intros; apply Hys; by right). rewrite Hin; [by rewrite orb_assoc|].
      intros x Hx%elem_of_seqZ. specialize (Hys y ltac:(by left)). lia. }
  rewrite Hout by (intros y Hy%elem_of_seqZ; lia).
  rewrite Z.bits_0, orb_false_l, existsb_seqZ. split.
  - intros (y & Hy & (x & Hx & Hb)%existsb_seqZ).
    apply andb_true_iff in Hb as [Ht ->%bool_decide_eq_true].
    exists x, y. repeat split; try lia. done.
  - intros (x & y & Hx & Hy & -> & Ht). exists y. split; [lia|].
    apply existsb_seqZ. exists x. split; [lia|]. rewrite Ht. cbn [andb].
    apply bool_decide_eq_true. lia.
Qed.

Lemma boardToArray_lookup board x y :
  0 ≤ x < 8 → 0 ≤ y < 8 →
  js_index (boardToArray board) y ≫= (λ row, js_index row x)
  = Some (if getBit board x y then 1 else 0).
Proof.
  intros Hx Hy. unfold boardToArray, js_index, BOARD_SIZE.
  replace (0 <=? y) with true by lia. replace (0 <=? x) with true by lia.
  change (map ?f ?l) with (f <$> l).
  rewrite list_lookup_fmap, lookup_seqZ_lt by lia. cbn [fmap option_fmap option_map mbind option_bind].
  rewrite list_lookup_fmap, lookup_seqZ_lt by lia. cbn [fmap option_fmap option_map].
  by rewrite !Z.add_0_l, !Z2Nat.id by lia.
Qed.

(** X7. [arrayToBoard] after [boardToArray] keeps the 64 low bits of the
    board, so it gives back every board; [boardToArray] after
    [arrayToBoard] gives back every 8 by 8 array of zeros and ones. *)
Theorem board_array_roundtrip :
  (∀ board, arrayToBoard (boardToArray board) = Z.land board fullBoard)
  ∧ (∀ board, is_board board → arrayToBoard (boardToArray board) = board)
  ∧ (∀ arr, grid_8x8 arr → boardToArray (arrayToBoard arr) = arr).
Proof.
  assert (H1 : ∀ board, arrayToBoard (boardToArray board) = Z.land board fullBoard).
  { intros board. apply Z.bits_inj'. intros i Hi.
    change fullBoard with (Z.ones 64). rewrite Z.land_spec, Z.testbit_ones by lia.
    apply eq_true_iff_eq. rewrite arrayToBoard_testbit, !andb_true_iff, Z.leb_le, Z.ltb_lt.
    split.
    - intros (x & y & Hx & Hy & -> & Ht). unfold cellTruthy in Ht.
      rewrite boardToArray_lookup in Ht by done.
      rewrite getBit_testbit in Ht by (unfold coordToIndex, BOARD_SIZE; lia).
      unfold coordToIndex, BOARD_SIZE in Ht. replace (8 * y + x) with (y * 8 + x) by lia.
      destruct (Z.testbit board (y * 8 + x)); [|done]. lia.
    - intros (Hb & _ & Hlt). exists (i mod 8), (i / 8).
      pose proof (Z.mod_pos_bound i 8 ltac:(lia)). pose proof (Z.div_mod i 8 ltac:(lia)).
      assert (0 ≤ i / 8) by (apply Z.div_pos; lia).
      assert (i / 8 < 8) by (apply Z.div_lt_upper_bound; lia).
      split; [lia|]. split; [lia|]. split; [lia|]. unfold cellTruthy.
      rewrite boardToArray_lookup by lia.
      rewrite getBit_testbit by (unfold coordToIndex, BOARD_SIZE; lia).
      unfold coordToIndex, BOARD_SIZE. replace (i / 8 * 8 + i mod 8) with i by lia.
      by rewrite Hb. }
  split; [exact H1|]. split.
  - intros board Hb. rewrite H1. change fullBoard with (Z.ones 64).
    rewrite Z.land_ones by lia. apply Z.mod_small. exact Hb.
  - intros arr [Hlen Hrows]. apply list_eq. intros j.
    unfold boardToArray, BOARD_SIZE. change (map ?f ?l) with (f <$> l).
    rewrite list_lookup_fmap. destruct (decide (j < 8)%nat) as [Hj|Hj].
    2:{ rewrite lookup_seqZ_ge by lia. symmetry. apply lookup_ge_None. lia. }
    rewrite lookup_seqZ_lt by lia. cbn [fmap option_fmap option_map].
    destruct (arr !! j) as [row|] eqn:Erow; [|apply lookup_ge_None in Erow; lia].
    f_equal. rewrite Forall_forall in Hrows.
    destruct (Hrows row) as [Hrl Hvals]; [by eapply list_elem_of_lookup_2|].
    apply list_eq. intros k. rewrite list_lookup_fmap.
    destruct (decide (k < 8)%nat) as [Hk|Hk].
    2:{ rewrite lookup_seqZ_ge by lia. symmetry. apply lookup_ge_None. lia. }
    rewrite lookup_seqZ_lt by lia. cbn [fmap option_fmap option_map].
    destruct (row !! k) as [v|] eqn:Ev; [|apply lookup_ge_None in Ev; lia].
    f_equal. rewrite !Z.add_0_l.
    rewrite getBit_testbit by (unfold coordToIndex, BOARD_SIZE; lia).
    assert (Ht : cellTruthy arr (Z.of_nat k) (Z.of_nat j) = negb (v =? 0)).
    { unfold cellTruthy, js_index. replace (0 <=? Z.of_nat j) with true by lia.
      replace (0 <=? Z.of_nat k) with true by lia. rewrite !Nat2Z.id, Erow.
      cbn [mbind option_bind]. by rewrite Ev. }
    rewrite Forall_forall in Hvals. specialize (Hvals v ltac:(by eapply list_elem_of_lookup_2)).
    unfold coordToIndex, BOARD_SIZE.
    destruct (Z.testbit (arrayToBoard arr) _) eqn:Eb.
    + apply arrayToBoard_testbit in Eb as (x & y & Hx & Hy & Heq & Hxy).
      assert (x = Z.of_nat k ∧ y = Z.of_nat j) as [-> ->] by lia.
      rewrite Ht in Hxy. destruct Hvals as [-> | ->]; done.
    + destruct Hvals as [-> | ->]; [done|]. exfalso.
      assert (Z.testbit (arrayToBoard arr) (Z.of_nat j * 8 + Z.of_nat k) = true); [|congruence].
      apply arrayToBoard_testbit. exists (Z.of_nat k), (Z.of_nat j).
      repeat split; try lia. by rewrite Ht.
Qed.

Lemma board_array_roundtrip_witness :
  arrayToBoard (boardToArray 127) = 127.
Proof.
  destruct board_array_roundtrip as (_ & H & _). apply (H 127). unfold is_board. lia.
Defined.

End BitboardLaws.

Module PieceLaws.
Import Bitboard Pieces GameLogic Spec BitboardFacts PlacementFacts PieceFacts
  BitboardLaws CatalogFacts SolverFacts.

Lemma pieceMaskAt_loop_testbit px py cells mask i :
  Forall (λ c, isInBounds (px + c.1) (py + c.2) = true) cells →
  Z.testbit (pieceMaskAt_loop px py cells mask) i
  = Z.testbit mask i
    || existsb (λ c, bool_decide (i = coordToIndex (px + c.1) (py + c.2))) cells.
Proof.
  revert mask. induction cells as [|[dx dy] cells IH]; intros mask Hin.
  - cbn. by rewrite orb_false_r.
  - apply Forall_cons in Hin as [Hc Hin]. cbn [pieceMaskAt_loop existsb fst snd] in *.
    rewrite Hc. cbn [negb]. rewrite IH by done. unfold setBit.
    apply isInBounds_true in Hc.
    rewrite Z.lor_spec, testbit_shiftl_1 by (unfold coordToIndex, BOARD_SIZE; lia).
    by rewrite orb_assoc.
Qed.

Lemma in_box_in_bounds p px py :
  cells_in_box p → anchor_in_bounds p px py →
  Forall (λ c, isInBounds (px + c.1) (py + c.2) = true) (Piece.cells p).
Proof.
  unfold cells_in_box, anchor_in_bounds, BOARD_SIZE. intros Hbox (?&?&?&?).
  eapply Forall_impl; [exact Hbox|]. intros [dx dy]. cbn [fst snd].
  intros ?. apply isInBounds_true. lia.
Qed.

Lemma pieceMaskAt_in_bounds p px py :
  anchor_in_bounds p px py →
  pieceMaskAt p px py = pieceMaskAt_loop px py (Piece.cells p) 0.
Proof.
  unfold anchor_in_bounds, pieceMaskAt, BOARD_SIZE. intros (?&?&?&?).
  replace (px <? 0) with false by lia. replace (py <? 0) with false by lia.
  replace (8 <? px + Piece.w p) with false by lia.
  by replace (8 <? py + Piece.h p) with false by lia.
Qed.

Lemma pieceMaskAt_testbit p px py i :
  cells_in_box p → anchor_in_bounds p px py →
  Z.testbit (pieceMaskAt p px py) i = true
  ↔ ∃ c, c ∈ Piece.cells p ∧ i = coordToIndex (px + c.1) (py + c.2).
Proof.
  intros Hbox Hanchor. rewrite pieceMaskAt_in_bounds by done.
  rewrite pieceMaskAt_loop_testbit by by apply in_box_in_bounds.
  rewrite Z.bits_0, orb_false_l, existsb_exists. split.
  - intros (c & Hc%list_elem_of_In & ->%bool_decide_eq_true). eauto.
  - intros (c & Hc & ->). exists c. split; [by apply list_elem_of_In|].
    by apply bool_decide_eq_true.
Qed.

(** X8. For a piece whose offsets lie inside its box, at an anchor whose
    box lies on the board: [pieceMaskAt] is [cellsToMask] of
    [getPieceCells], and a board cell is in the mask exactly when it is the
    anchor plus one of the piece's offsets. *)
Theorem pieceMaskAt_cells (p : Piece.t) (px py : Z) :
  cells_in_box p → anchor_in_bounds p px py →
  pieceMaskAt p px py = cellsToMask (getPieceCells p px py)
  ∧ ∀ x y, 0 ≤ x < 8 → 0 ≤ y < 8 →
      (getBit (pieceMaskAt p px py) x y = true ↔ (x - px, y - py) ∈ Piece.cells p).
Proof.
  intros Hbox Hanchor.
  pose proof (in_box_in_bounds p px py Hbox Hanchor) as Hin.
  rewrite Forall_forall in Hin. split.
  - apply Z.bits_inj'. intros i Hi. apply eq_true_iff_eq.
    rewrite pieceMaskAt_testbit by done. unfold cellsToMask, getPieceCells, setBit.
    rewrite (foldl_lor_testbit (λ c, Z.shiftl 1 (coordToIndex c.1 c.2))).
    rewrite Z.bits_0, orb_false_l, existsb_exists. split.
    + intros (c & Hc & ->). exists (px + c.1, py + c.2). split.
      * apply in_map_iff. exists c. split; [done|by apply list_elem_of_In].
      * cbn [fst snd]. specialize (Hin c Hc). apply isInBounds_true in Hin.
        rewrite testbit_shiftl_1 by (unfold coordToIndex, BOARD_SIZE; lia).
        by apply bool_decide_eq_true.
    + intros (c' & (c & <- & Hc%list_elem_of_In)%in_map_iff & Hb). cbn [fst snd] in Hb.
      specialize (Hin c Hc). apply isInBounds_true in Hin.
      rewrite testbit_shiftl_1 in Hb by (unfold coordToIndex, BOARD_SIZE; lia).
      apply bool_decide_eq_true in Hb. eauto.
  - intros x y Hx Hy.
    rewrite getBit_testbit by (unfold coordToIndex, BOARD_SIZE; lia).
    rewrite pieceMaskAt_testbit by done. split.
    + intros ([dx dy] & Hc & Heq). specialize (Hin _ Hc). cbn [fst snd] in *.
      apply isInBounds_true in Hin. unfold coordToIndex, BOARD_SIZE in Heq.
      assert (x = px + dx ∧ y = py + dy) as [-> ->] by lia.
      by replace (px + dx - px) with dx by lia; replace (py + dy - py) with dy by lia.
    + intros Hc. exists (x - px, y - py). split; [done|]. cbn [fst snd]. f_equal; lia.
Qed.

Lemma pieceMaskAt_cells_witness :
  let p := Piece.mk 7 2 2 [(0, 0); (0, 1); (1, 1)] "0,0;0,1;1,1" in
  pieceMaskAt p 6 6 = cellsToMask (getPieceCells p 6 6)
  ∧ ∀ x y, 0 ≤ x < 8 → 0 ≤ y < 8 →
      (getBit (pieceMaskAt p 6 6) x y = true ↔ (x - 6, y - 6) ∈ Piece.cells p).
Proof.
  apply (pieceMaskAt_cells (Piece.mk 7 2 2 [(0, 0); (0, 1); (1, 1)] "0,0;0,1;1,1") 6 6).
  - unfold cells_in_box. cbn. repeat (apply Forall_cons_2; [simpl; lia|]). apply Forall_nil_2.
  - unfold anchor_in_bounds, BOARD_SIZE. simpl. lia.
Defined.

Lemma land_0_iff a b :
  Z.land a b = 0 ↔ ∀ i, 0 ≤ i → Z.testbit b i = true → Z.testbit a i = false.
Proof.
  split.
  - intros H i Hi Hb. apply (f_equal (λ z, Z.testbit z i)) in H.
    rewrite Z.land_spec, Z.bits_0, Hb, andb_true_r in H. done.
  - intros H. apply Z.bits_inj'. intros i Hi. rewrite Z.land_spec, Z.bits_0.
    destruct (Z.testbit b i) eqn:E; [|apply andb_false_r]. by rewrite (H i Hi E).
Qed.

(** X9. [canPlace] is true exactly when the mask at the anchor is not
    empty and does not meet the board; then the box lies on the board.
    For a piece with at least one cell and offsets inside its box it is
    true exactly when the box lies on the board and every cell the piece
    would cover is free. *)
Theorem canPlace_spec (board : Z) (p : Piece.t) (px py : Z) :
  (canPlace board p px py = true
     ↔ pieceMaskAt p px py ≠ 0 ∧ Z.land board (pieceMaskAt p px py) = 0)
  ∧ (canPlace board p px py = true → anchor_in_bounds p px py)
  ∧ (cells_in_box p → Piece.cells p ≠ [] →
       (canPlace board p px py = true
          ↔ anchor_in_bounds p px py
            ∧ ∀ c, c ∈ getPieceCells p px py → getBit board c.1 c.2 = false)).
Proof.
  split; [apply canPlace_iff|]. split.
  - intros [Hm _]%canPlace_iff. apply pieceMaskAt_nonzero_bounds in Hm.
    unfold anchor_in_bounds, BOARD_SIZE. lia.
  - intros Hbox Hne. rewrite canPlace_iff. split.
    + intros [Hm Ho].
      assert (Ha : anchor_in_bounds p px py).
      { apply pieceMaskAt_nonzero_bounds in Hm. unfold anchor_in_bounds, BOARD_SIZE. lia. }
      split; [done|]. intros c' (c & -> & Hc)%list_elem_of_fmap. cbn [fst snd].
      pose proof (in_box_in_bounds p px py Hbox Ha) as Hin.
      rewrite Forall_forall in Hin. specialize (Hin c Hc). apply isInBounds_true in Hin.
      rewrite getBit_testbit by (unfold coordToIndex, BOARD_SIZE; lia).
      apply (proj1 (land_0_iff _ _) Ho); [unfold coordToIndex, BOARD_SIZE; lia|].
      apply pieceMaskAt_testbit; eauto.
    + intros [Ha Hfree].
      pose proof (in_box_in_bounds p px py Hbox Ha) as Hin. rewrite Forall_forall in Hin.
      split.
      * destruct (Piece.cells p) as [|c cells] eqn:Ecells; [done|]. intros H0.
        assert (Z.testbit (pieceMaskAt p px py) (coordToIndex (px + c.1) (py + c.2)) = true).
        { apply pieceMaskAt_testbit; [done..|]. exists c. rewrite Ecells. split; [by left|done]. }
        rewrite H0, Z.bits_0 in H. done.
      * apply land_0_iff. intros i Hi (c & Hc & ->)%pieceMaskAt_testbit; [|done..].
        specialize (Hfree (px + c.1, py + c.2)). cbn [fst snd] in Hfree.
        rewrite getBit_testbit in Hfree by done. apply Hfree.
        unfold getPieceCells. apply list_elem_of_fmap. eauto.
Qed.

Lemma canPlace_spec_witness :
  let p := Piece.mk 2 2 1 [(0, 0); (1, 0)] "0,0;1,0" in
  canPlace 3 p 2 0 = true
  ↔ anchor_in_bounds p 2 0 ∧ ∀ c, c ∈ getPieceCells p 2 0 → getBit 3 c.1 c.2 = false.
Proof.
  apply (canPlace_spec 3 (Piece.mk 2 2 1 [(0, 0); (1, 0)] "0,0;1,0") 2 0).
  - unfold cells_in_box. cbn. repeat (apply Forall_cons_2; [simpl; lia|]). apply Forall_nil_2.
  - discriminate.
Defined.

Lemma flat_map_ext_elem {A B : Type} (f g : A → list B) (l : list A) :
  (∀ a, a ∈ l → f a = g a) → flat_map f l = flat_map g l.
Proof.
  induction l as [|a l IH]; intros Hfg; [done|]. cbn [flat_map].
  rewrite Hfg by (by left). f_equal. apply IH. intros b Hb. apply Hfg. by right.
Qed.

Lemma filter_flat_map {A B : Type} (P : B → Prop) `{!∀ x, Decision (P x)}
    (f : A → list B) (l : list A) :
  filter P (flat_map f l) = flat_map (λ a, filter P (f a)) l.
Proof.
  induction l as [|a l IH]; [done|]. cbn [flat_map]. by rewrite filter_app, IH.
Qed.

Lemma count_foldl (board : Z) (placements : list Placement.t) (count : Z) :
  foldl (λ count p, if Z.land board (Placement.mask p) =? 0 then count + 1 else count)
    count placements
  = count + Z.of_nat (length (filter (λ p, Z.land board (Placement.mask p) = 0) placements)).
Proof.
  revert count. induction placements as [|p l IH]; intros count; cbn [foldl].
  - cbn. lia.
  - rewrite IH, filter_cons. destruct (Z.land board (Placement.mask p) =? 0) eqn:E.
    + apply Z.eqb_eq in E. rewrite decide_True by done. rewrite length_cons. lia.
    + apply Z.eqb_neq in E. by rewrite decide_False by done.
Qed.

Section Catalog.
Variable rawPieces : list Piece.t.

(** X10. The three ways the code lists the legal placements of a piece
    agree: the anchor scan with [canPlace] of pieces.ts returns the same
    list, in the same order, as the filter of the precomputed table in
    game-logic.ts and in solver.ts.  [countLegalPlacements] is its length,
    [hasLegalPlacement] says whether it is not empty, and an id that is not
    in the catalog has no placement. *)
Theorem legal_placements_agree (board pieceId : Z) :
  Pieces.getLegalPlacements rawPieces board pieceId
  = Solver.getLegalPlacements rawPieces board pieceId
  ∧ getLegalPlacementsForPiece rawPieces board pieceId
    = Solver.getLegalPlacements rawPieces board pieceId
  ∧ countLegalPlacements rawPieces board pieceId
    = Z.of_nat (length (Solver.getLegalPlacements rawPieces board pieceId))
  ∧ (hasLegalPlacement rawPieces board pieceId = true
       ↔ Solver.getLegalPlacements rawPieces board pieceId ≠ [])
  ∧ (PIECES rawPieces !! pieceId = None →
       Solver.getLegalPlacements rawPieces board pieceId = []).
Proof.
  assert (H1 : Pieces.getLegalPlacements rawPieces board pieceId
               = Solver.getLegalPlacements rawPieces board pieceId).
  { unfold Pieces.getLegalPlacements, Solver.getLegalPlacements.
    rewrite PRECOMPUTED_PLACEMENTS_lookup.
    destruct (PIECES rawPieces !! pieceId) as [piece|]; [|done].
    cbn [fmap option_fmap option_map]. unfold placementsOf. rewrite filter_flat_map.
    apply flat_map_ext_elem. intros py Hpy%elem_of_seqZ.
    rewrite filter_flat_map. apply flat_map_ext_elem.
    intros px Hpx%elem_of_seqZ. cbn zeta.
    unfold canPlace. unfold BOARD_SIZE in *.
    replace (px <? 0) with false by lia. replace (py <? 0) with false by lia.
    replace (8 <? px + Piece.w piece) with false by lia.
    replace (8 <? py + Piece.h piece) with false by lia. cbn [orb].
    destruct (pieceMaskAt piece px py =? 0); [done|].
    rewrite filter_cons, filter_nil. cbn [Placement.mask].
    destruct (Z.land board (pieceMaskAt piece px py) =? 0) eqn:E.
    - apply Z.eqb_eq in E. by rewrite decide_True.
    - apply Z.eqb_neq in E. by rewrite decide_False. }
  split; [exact H1|]. split; [done|]. split; [|split].
  - unfold countLegalPlacements, Solver.getLegalPlacements.
    destruct (PRECOMPUTED_PLACEMENTS rawPieces !! pieceId); [|done].
    by rewrite count_foldl.
  - rewrite <- H1. unfold hasLegalPlacement, Pieces.getLegalPlacements.
    destruct (PIECES rawPieces !! pieceId) as [piece|]; [|done].
    rewrite existsb_exists. split.
    + intros (py & Hpy & (px & Hpx & Hcan)%existsb_exists) Hnil.
      apply flat_map_nil_iff with (a := py) in Hnil; [|by apply list_elem_of_In].
      apply flat_map_nil_iff with (a := px) in Hnil; [|by apply list_elem_of_In].
      by rewrite Hcan in Hnil.
    + intros Hne. destruct (flat_map _ _) as [|p l] eqn:E; [done|].
      assert (Hp : In p (p :: l)) by (by left). rewrite <- E in Hp.
      apply in_flat_map in Hp as (py & Hpy & Hp). apply in_flat_map in Hp as (px & Hpx & Hp).
      exists py. split; [done|]. apply existsb_exists. exists px. split; [done|].
      by destruct (canPlace board piece px py).
  - intros Hnone. unfold Solver.getLegalPlacements.
    by rewrite PRECOMPUTED_PLACEMENTS_lookup, Hnone.
Qed.

Lemma pieceMaskAt_loop_is_board px py cells mask :
  is_board mask → is_board (pieceMaskAt_loop px py cells mask).
Proof.
  revert mask. induction cells as [|[dx dy] cells IH]; intros mask Hm; [done|].
  cbn [pieceMaskAt_loop]. destruct (isInBounds _ _) eqn:E; cbn [negb].
  - apply IH. apply isInBounds_true in E. apply is_board_lor; [done|].
    apply is_board_bit. unfold coordToIndex, BOARD_SIZE. lia.
  - unfold is_board. lia.
Qed.

Lemma pieceMaskAt_is_board p px py : is_board (pieceMaskAt p px py).
Proof.
  unfold pieceMaskAt. destruct (_ || _).
  - unfold is_board. lia.
  - apply pieceMaskAt_loop_is_board. unfold is_board. lia.
Qed.

(** Every placement of the table has a mask that is not empty and lies on
    the board. *)
Lemma table_entry pieceId placements p :
  PRECOMPUTED_PLACEMENTS rawPieces !! pieceId = Some placements → p ∈ placements →
  Placement.mask p ≠ 0 ∧ is_board (Placement.mask p).
Proof.
  rewrite PRECOMPUTED_PLACEMENTS_lookup.
  destruct (PIECES rawPieces !! pieceId) as [piece|]; [|done].
  intros [= <-] [Hm Hnz]%elem_of_placementsOf. split; [done|].
  rewrite Hm. apply pieceMaskAt_is_board.
Qed.

Lemma computeMobility_foldr board :
  computeMobility rawPieces board
  = foldr (λ kv total,
      total + Z.of_nat (length (filter (λ p, Z.land board (Placement.mask p) = 0) kv.2)))
      0 (map_to_list (PRECOMPUTED_PLACEMENTS rawPieces)).
Proof.
  unfold computeMobility. rewrite map_fold_foldr.
  generalize (map_to_list (PRECOMPUTED_PLACEMENTS rawPieces)). intros l.
  induction l as [|[k pls] l IH]; [done|]. cbn [foldr uncurry fst snd].
  by rewrite count_foldl, IH.
Qed.

Lemma legal_mono a b p :
  is_board (Placement.mask p) →
  (∀ i, 0 ≤ i < 64 → Z.testbit a i = true → Z.testbit b i = true) →
  Z.land b (Placement.mask p) = 0 → Z.land a (Placement.mask p) = 0.
Proof.
  intros Hm Hab Hb. apply land_0_iff. intros i Hi Hbit.
  pose proof (is_board_testbit _ _ Hm Hbit) as Hi64.
  pose proof (proj1 (land_0_iff _ _) Hb i Hi Hbit) as Hbi.
  destruct (Z.testbit a i) eqn:E; [|done]. rewrite (Hab i Hi64 E) in Hbi. done.
Qed.

Lemma filter_length_mono {A : Type} (P Q : A → Prop) `{!∀ x, Decision (P x)}
    `{!∀ x, Decision (Q x)} (l : list A) :
  (∀ x, x ∈ l → P x → Q x) → (length (filter P l) ≤ length (filter Q l))%nat.
Proof.
  induction l as [|a l IH]; intros Himp; [done|].
  rewrite !filter_cons. specialize (IH ltac:(intros; apply Himp; [by right|done])).
  pose proof (Himp a ltac:(by left)).
  repeat case_decide; cbn [length]; try lia. tauto.
Qed.

Lemma computeMobility_mono a b :
  (∀ i, 0 ≤ i < 64 → Z.testbit a i = true → Z.testbit b i = true) →
  computeMobility rawPieces b ≤ computeMobility rawPieces a.
Proof.
  intros Hab. rewrite !computeMobility_foldr.
  assert (Hl : ∀ kv, kv ∈ map_to_list (PRECOMPUTED_PLACEMENTS rawPieces) →
                PRECOMPUTED_PLACEMENTS rawPieces !! kv.1 = Some kv.2)
    by (intros [k v]; apply elem_of_map_to_list).
  revert Hl. generalize (map_to_list (PRECOMPUTED_PLACEMENTS rawPieces)). intros l.
  induction l as [|[k pls] l IH]; intros Hl; [done|]. cbn [foldr fst snd].
  specialize (IH ltac:(intros; apply Hl; by right)).
  pose proof (Hl (k, pls) ltac:(by left)) as Hk. cbn [fst snd] in Hk.
  assert (length (filter (λ p, Z.land b (Placement.mask p) = 0%Z) pls)
          ≤ length (filter (λ p, Z.land a (Placement.mask p) = 0%Z) pls))%nat; [|lia].
  apply filter_length_mono. intros p Hp. apply legal_mono; [|done].
  by destruct (table_entry k pls p Hk Hp).
Qed.

(** X11. Mobility never grows when cells are added: if every cell set in
    [a] is set in [b] then the mobility of [b] is at most that of [a].  It
    is never negative, it is at most the mobility of the empty board, and
    the full board has mobility 0. *)
Theorem computeMobility_order (a b : Z) :
  ((∀ i, 0 ≤ i < 64 → Z.testbit a i = true → Z.testbit b i = true) →
     computeMobility rawPieces b ≤ computeMobility rawPieces a)
  ∧ 0 ≤ computeMobility rawPieces a
  ∧ computeMobility rawPieces a ≤ computeMobility rawPieces emptyBoard
  ∧ computeMobility rawPieces fullBoard = 0.
Proof.
  split; [apply computeMobility_mono|].
  assert (H0 : ∀ c, 0 ≤ computeMobility rawPieces c).
  { intros c. rewrite computeMobility_foldr.
    induction (map_to_list (PRECOMPUTED_PLACEMENTS rawPieces)) as [|kv l IH]; [done|].
    cbn [foldr]. lia. }
  split; [apply H0|]. split.
  - apply computeMobility_mono. intros i _. unfold emptyBoard. by rewrite Z.bits_0.
  - apply Z.le_antisymm; [|apply H0]. rewrite computeMobility_foldr.
    assert (Hl : ∀ kv, kv ∈ map_to_list (PRECOMPUTED_PLACEMENTS rawPieces) →
                  PRECOMPUTED_PLACEMENTS rawPieces !! kv.1 = Some kv.2)
      by (intros [k v]; apply elem_of_map_to_list).
    revert Hl. generalize (map_to_list (PRECOMPUTED_PLACEMENTS rawPieces)). intros l.
    induction l as [|[k pls] l IH]; intros Hl; [done|]. cbn [foldr fst snd].
    specialize (IH ltac:(intros; apply Hl; by right)).
    pose proof (Hl (k, pls) ltac:(by left)) as Hk. cbn [fst snd] in Hk.
    assert (filter (λ p, Z.land fullBoard (Placement.mask p) = 0) pls = []) as ->;
      [|cbn [length]; lia].
    apply elem_of_nil_inv. intros p [Hfull Hp]%list_elem_of_filter.
    destruct (table_entry k pls p Hk Hp) as [Hnz Hb]. apply Hnz.
    change fullBoard with (Z.ones 64) in Hfull.
    rewrite Z.land_comm, Z.land_ones, Z.mod_small in Hfull by (done || lia). done.
Qed.

(** X12. For boards [a] and [b] with every cell of [a] set in [b],
    [evaluateBoard] gives a result on both and the result on [b] is at
    most the result on [a]. *)
Theorem evaluateBoard_mono (a b : Z) :
  is_board a → is_board b →
  (∀ i, 0 ≤ i < 64 → Z.testbit a i = true → Z.testbit b i = true) →
  ∃ ea eb, evaluateBoard rawPieces a = Some ea ∧ evaluateBoard rawPieces b = Some eb
           ∧ eb ≤ ea.
Proof.
  intros Ha Hb Hab. unfold evaluateBoard.
  rewrite (countBits_popsum 64 a), (countBits_popsum 64 b) by done.
  cbn [mbind option_bind]. eexists _, _. split; [done|]. split; [done|].
  pose proof (computeMobility_mono a b Hab).
  assert (popsum 64 a ≤ popsum 64 b); [|lia].
  apply popsum_mono. intros i Hi Hbit. apply Hab; [|done].
  by apply (is_board_testbit a).
Qed.

Lemma pieceMaskAt_nonzero p px py :
  cells_in_box p → Piece.cells p ≠ [] → anchor_in_bounds p px py →
  pieceMaskAt p px py ≠ 0.
Proof.
  intros Hbox Hne Ha H0. destruct (Piece.cells p) as [|c cells] eqn:Ecells; [done|].
  assert (Z.testbit (pieceMaskAt p px py) (coordToIndex (px + c.1) (py + c.2)) = true).
  { apply pieceMaskAt_testbit; [done..|]. exists c. rewrite Ecells. split; [by left|done]. }
  rewrite H0, Z.bits_0 in H. done.
Qed.

(** X13. [simulatePlacement] on an id that is not in the catalog returns
    [null].  For a catalog piece with at least one cell and offsets inside
    its box it returns [placePiece] of the piece's mask exactly when
    [canPlace] holds, and [null] otherwise.  For a piece with no cell the
    two differ: at an anchor in bounds [canPlace] is false while
    [simulatePlacement] returns the placement of the empty mask. *)
Theorem simulatePlacement_spec (board pieceId x y : Z) :
  (PIECES rawPieces !! pieceId = None →
     simulatePlacement rawPieces board pieceId x y = None)
  ∧ (∀ piece, PIECES rawPieces !! pieceId = Some piece →
       cells_in_box piece → Piece.cells piece ≠ [] →
       simulatePlacement rawPieces board pieceId x y
       = if canPlace board piece x y
         then Some (placePiece board (pieceMaskAt piece x y)) else None)
  ∧ (∀ piece, PIECES rawPieces !! pieceId = Some piece →
       Piece.cells piece = [] → anchor_in_bounds piece x y →
       simulatePlacement rawPieces board pieceId x y = Some (placePiece board 0)
       ∧ canPlace board piece x y = false).
Proof.
  unfold simulatePlacement. split; [by intros ->|]. split.
  - intros piece -> Hbox Hne. unfold canPlace.
    destruct (_ || _) eqn:Ebounds; [done|].
    assert (Ha : anchor_in_bounds piece x y).
    { unfold anchor_in_bounds, BOARD_SIZE in *.
      apply orb_false_iff in Ebounds as [[[E1 E2]%orb_false_iff E3]%orb_false_iff E4]. lia. }
    destruct (pieceMaskAt_cells piece x y Hbox Ha) as [Hmask _].
    unfold cellsToMask, getPieceCells in Hmask. change (map ?f ?l) with (f <$> l) in Hmask.
    rewrite foldl_fmap in Hmask. cbn [fst snd] in Hmask.
    change (foldl _ 0 (Piece.cells piece))
      with (foldl (λ mask c, setBit mask (x + c.1) (y + c.2)) 0 (Piece.cells piece)).
    rewrite <- Hmask.
    rewrite (proj2 (Z.eqb_neq _ _) (pieceMaskAt_nonzero piece x y Hbox Hne Ha)).
    by destruct (Z.land board (pieceMaskAt piece x y) =? 0).
  - intros piece -> Hnil Ha. rewrite Hnil. cbn [foldl].
    unfold canPlace, pieceMaskAt. rewrite Hnil. cbn [pieceMaskAt_loop].
    unfold anchor_in_bounds, BOARD_SIZE in *.
    replace (x <? 0) with false by lia. replace (y <? 0) with false by lia.
    replace (8 <? x + Piece.w piece) with false by lia.
    replace (8 <? y + Piece.h piece) with false by lia. cbn [orb].
    by rewrite Z.land_0_r.
Qed.

Lemma existsb_legal board (placements : list Placement.t) :
  existsb (λ p, Z.land board (Placement.mask p) =? 0) placements = true
  ↔ filter (λ p, Z.land board (Placement.mask p) = 0) placements ≠ [].
Proof.
  rewrite existsb_exists. split.
  - intros (p & Hp%list_elem_of_In & E%Z.eqb_eq) Hnil.
    assert (p ∈ filter (λ p, Z.land board (Placement.mask p) = 0) placements)
      by by apply list_elem_of_filter.
    rewrite Hnil in H. by apply elem_of_nil in H.
  - intros Hne. destruct (filter _ _) as [|p l] eqn:E; [done|].
    assert (Hp : p ∈ p :: l) by (by left). rewrite <- E in Hp.
    apply list_elem_of_filter in Hp as [Hleg Hp]. exists p.
    split; [by apply list_elem_of_In|by apply Z.eqb_eq].
Qed.

Lemma hasPlacement_iff board pieceId :
  match PRECOMPUTED_PLACEMENTS rawPieces !! pieceId with
  | None => false
  | Some placements => existsb (λ p, Z.land board (Placement.mask p) =? 0) placements
  end = true
  ↔ Solver.getLegalPlacements rawPieces board pieceId ≠ [].
Proof.
  unfold Solver.getLegalPlacements.
  destruct (PRECOMPUTED_PLACEMENTS rawPieces !! pieceId); [apply existsb_legal|done].
Qed.

(** X14. [canPlaceAnyPiece] is true exactly when some piece of the hand
    has a legal placement on the board, [canPlaceAllPieces] exactly when
    every piece has one.  When no piece of a 3-piece hand can be placed
    [solveTriple] returns [null]. *)
Theorem canPlace_hand (board : Z) (hand : list Z) :
  (canPlaceAnyPiece rawPieces board hand = true
     ↔ ∃ pieceId, pieceId ∈ hand
                  ∧ Solver.getLegalPlacements rawPieces board pieceId ≠ [])
  ∧ (canPlaceAllPieces rawPieces board hand = true
     ↔ ∀ pieceId, pieceId ∈ hand →
                  Solver.getLegalPlacements rawPieces board pieceId ≠ [])
  ∧ (length hand = 3%nat → canPlaceAnyPiece rawPieces board hand = false →
       Solver.solveTriple rawPieces board hand = Ok None).
Proof.
  assert (Hany : canPlaceAnyPiece rawPieces board hand = true
                 ↔ ∃ pieceId, pieceId ∈ hand
                      ∧ Solver.getLegalPlacements rawPieces board pieceId ≠ []).
  { unfold canPlaceAnyPiece. rewrite existsb_exists. split.
    - intros (i & Hi%list_elem_of_In & H%hasPlacement_iff). eauto.
    - intros (i & Hi%list_elem_of_In & H%hasPlacement_iff). eauto. }
  split; [exact Hany|]. split.
  - unfold canPlaceAllPieces. rewrite forallb_forall. split.
    + intros H i Hi%list_elem_of_In. by apply hasPlacement_iff, H.
    + intros H i Hi%list_elem_of_In. by apply hasPlacement_iff, H.
  - intros Hlen Hfalse. destruct hand as [|a [|b [|c [|]]]]; try done.
    unfold Solver.solveTriple. cbn [length Nat.eqb negb].
    destruct (solveTriple_loop_spec rawPieces board [a; b; c]
                (Solver.permutations [0; 1; 2]) (six_nonempty)) as (r & -> & Hr).
    f_equal. apply Hr. intros o Ho Hseq.
    assert (Hnot : ¬ ∃ pieceId, pieceId ∈ [a; b; c]
                     ∧ Solver.getLegalPlacements rawPieces board pieceId ≠ [])
      by (rewrite <- Hany; congruence).
    apply Hnot. rewrite permutations_3 in Ho.
    rewrite !elem_of_cons, elem_of_nil in Ho.
    destruct Ho as [->|[->|[->|[->|[->|[->|[]]]]]]]; cbn in Hseq;
      apply placeable_seq_cons_iff in Hseq as (p & Hp & _);
      eexists; (split; [|by intros Hnil; rewrite Hnil in Hp; apply elem_of_nil in Hp]);
      apply list_elem_of_In; simpl; auto.
Qed.

End Catalog.

Lemma computeMobility_order_witness :
  computeMobility Examples.catalog 7 ≤ computeMobility Examples.catalog 3.
Proof.
  destruct (computeMobility_order Examples.catalog 3 7) as [Hmono _]. apply Hmono.
  intros i Hi. assert (i = 0 ∨ i = 1 ∨ 2 ≤ i) as [-> |[-> | Hge]] by lia; [done|done|].
  intros Hbit. exfalso.
  assert (Hlt : 3 < 2 ^ i) by (apply (Z.lt_le_trans _ (2 ^ 2)); [lia|apply Z.pow_le_mono_r; lia]).
  rewrite (Z.bits_above_log2 3 i) in Hbit; [done|lia|]. simpl. lia.
Defined.

Lemma evaluateBoard_mono_witness :
  ∃ ea eb, evaluateBoard Examples.catalog 0 = Some ea
           ∧ evaluateBoard Examples.catalog 7 = Some eb ∧ eb ≤ ea.
Proof.
  apply (evaluateBoard_mono Examples.catalog 0 7).
  - unfold is_board. lia.
  - unfold is_board. lia.
  - intros i _. by rewrite Z.bits_0.
Defined.

End PieceLaws.

Module HashLaws.
Import PieceHash Spec.

Lemma js_sort_insert_Permutation {A : Type} (cmp : A → A → Z) a l :
  js_sort_insert cmp a l ≡ₚ a :: l.
Proof.
  induction l as [|b l IH]; [done|]. cbn [js_sort_insert].
  destruct (cmp a b <=? 0); [done|]. rewrite IH. apply Permutation_swap.
Qed.

(** The sort only reorders. *)
Lemma js_sort_Permutation {A : Type} (cmp : A → A → Z) l : js_sort cmp l ≡ₚ l.
Proof.
  induction l as [|a l IH]; [done|]. cbn [js_sort foldr].
  fold (js_sort cmp l). by rewrite js_sort_insert_Permutation, IH.
Qed.

Lemma cellLe_lex a b : cellLe a b ↔ a.1 < b.1 ∨ (a.1 = b.1 ∧ a.2 ≤ b.2).
Proof.
  unfold cellLe, cellCompare. destruct (a.1 =? b.1) eqn:E; cbn [negb]; lia.
Qed.

#[local] Instance cellLe_trans : Transitive cellLe.
Proof. intros a b c. rewrite !cellLe_lex. lia. Qed.

#[local] Instance cellLe_antisymm : AntiSymm (=) cellLe.
Proof.
  intros [a1 a2] [b1 b2]. rewrite !cellLe_lex. cbn [fst snd]. intros ? ?.
  f_equal; lia.
Qed.

Lemma js_sort_insert_Sorted a l :
  Sorted cellLe l → Sorted cellLe (js_sort_insert cellCompare a l).
Proof.
  induction l as [|b l IH]; intros Hs; cbn [js_sort_insert].
  - by repeat constructor.
  - destruct (cellCompare a b <=? 0) eqn:E.
    + constructor; [done|]. constructor. unfold cellLe. lia.
    + apply Sorted_inv in Hs as [Hs Hhd]. constructor; [by apply IH|].
      assert (Hba : cellLe b a) by (apply cellLe_lex; apply Z.leb_gt in E;
        unfold cellCompare in E; destruct (a.1 =? b.1) eqn:E1; cbn [negb] in E; lia).
      destruct l as [|c l]; cbn [js_sort_insert]; [by constructor|].
      destruct (cellCompare a c <=? 0); constructor; [done|].
      by apply HdRel_inv in Hhd.
Qed.

Lemma js_sort_Sorted l : Sorted cellLe (js_sort cellCompare l).
Proof.
  induction l as [|a l IH]; [constructor|]. cbn [js_sort foldr].
  by apply js_sort_insert_Sorted.
Qed.

Lemma listMin_spec x xs :
  listMin x xs ∈ x :: xs ∧ ∀ e, e ∈ x :: xs → listMin x xs ≤ e.
Proof.
  unfold listMin. revert x. induction xs as [|y xs IH]; intros x; cbn [foldl].
  - split; [by left|]. intros e ->%list_elem_of_singleton. lia.
  - destruct (IH (Z.min x y)) as [Hin Hle]. split.
    + apply elem_of_cons in Hin as [Hin|Hin]; [|by do 2 right].
      rewrite Hin. destruct (Z.min_spec x y) as [[_ ->]|[_ ->]]; [by left|by right; left].
    + intros e He. apply elem_of_cons in He as [->|He].
      * specialize (Hle (Z.min x y) ltac:(by left)). lia.
      * apply elem_of_cons in He as [->|He].
        -- specialize (Hle (Z.min x y) ltac:(by left)). lia.
        -- apply Hle. by right.
Qed.

Lemma listMin_unique x xs m :
  m ∈ x :: xs → (∀ e, e ∈ x :: xs → m ≤ e) → listMin x xs = m.
Proof.
  intros Hin Hle. destruct (listMin_spec x xs) as [Hin' Hle'].
  specialize (Hle _ Hin'). specialize (Hle' _ Hin). lia.
Qed.

Section Conversion.
Variable numberToString : Z → string.

(** X15. The canonical hash depends only on the shape: moving every
    cell by the same offset and listing the cells in another order give
    the same hash. *)
Theorem computeCanonicalHash_invariant (cells cells' : list (Z * Z)) (dx dy : Z) :
  map (λ c, (c.1 + dx, c.2 + dy)) cells ≡ₚ cells' →
  computeCanonicalHash numberToString cells'
  = computeCanonicalHash numberToString cells.
Proof.
  intros Hperm. destruct cells as [|c rest].
  { apply Permutation_nil_l in Hperm. by subst. }
  destruct cells' as [|c' rest'].
  { symmetry in Hperm. by apply Permutation_nil_cons in Hperm. }
  cbn zeta. unfold computeCanonicalHash. do 2 f_equal.
  set (minX := listMin c.1 (map fst rest)). set (minY := listMin c.2 (map snd rest)).
  assert (HX : listMin c'.1 (map fst rest') = minX + dx).
  { change (c'.1 :: map fst rest') with (map fst (c' :: rest')).
    destruct (listMin_spec c.1 (map fst rest)) as [Hin Hle]. fold minX in Hin, Hle.
    change (c.1 :: map fst rest) with (fst <$> (c :: rest)) in Hin, Hle.
    apply listMin_unique; change (c'.1 :: map fst rest') with (fst <$> (c' :: rest')).
    - apply list_elem_of_fmap in Hin as (e & He & Hin). rewrite <- Hperm.
      apply list_elem_of_fmap. exists (e.1 + dx, e.2 + dy). split; [cbn; lia|].
      change (map ?f ?l) with (f <$> l). apply list_elem_of_fmap. eauto.
    - intros v (e' & -> & He')%list_elem_of_fmap. rewrite <- Hperm in He'.
      change (map ?f ?l) with (f <$> l) in He'.
      apply list_elem_of_fmap in He' as (e & -> & He). cbn [fst].
      specialize (Hle e.1 ltac:(apply list_elem_of_fmap; eauto)). lia. }
  assert (HY : listMin c'.2 (map snd rest') = minY + dy).
  { destruct (listMin_spec c.2 (map snd rest)) as [Hin Hle]. fold minY in Hin, Hle.
    change (c.2 :: map snd rest) with (snd <$> (c :: rest)) in Hin, Hle.
    apply listMin_unique; change (c'.2 :: map snd rest') with (snd <$> (c' :: rest')).
    - apply list_elem_of_fmap in Hin as (e & He & Hin). rewrite <- Hperm.
      apply list_elem_of_fmap. exists (e.1 + dx, e.2 + dy). split; [cbn; lia|].
      change (map ?f ?l) with (f <$> l). apply list_elem_of_fmap. eauto.
    - intros v (e' & -> & He')%list_elem_of_fmap. rewrite <- Hperm in He'.
      change (map ?f ?l) with (f <$> l) in He'.
      apply list_elem_of_fmap in He' as (e & -> & He). cbn [snd].
      specialize (Hle e.2 ltac:(apply list_elem_of_fmap; eauto)). lia. }
  rewrite HX, HY.
  apply (Sorted_unique cellLe); [apply js_sort_Sorted..|].
  rewrite !js_sort_Permutation. rewrite <- Hperm.
  change (map ?f ?l) with (f <$> l). rewrite <- list_fmap_compose.
  assert ((λ c0 : Z * Z, (c0.1 - (minX + dx), c0.2 - (minY + dy)))
            ∘ (λ c0 : Z * Z, (c0.1 + dx, c0.2 + dy))
          <$> c :: rest
          = (λ c0 : Z * Z, (c0.1 - minX, c0.2 - minY)) <$> c :: rest) as ->; [|done].
  apply list_fmap_ext. intros _ [x y] _. cbn. f_equal; lia.
Qed.

End Conversion.

Lemma computeCanonicalHash_invariant_witness :
  computeCanonicalHash pretty [(4, 4); (3, 4)]
  = computeCanonicalHash pretty [(0, 0); (1, 0)].
Proof.
  apply (computeCanonicalHash_invariant pretty [(0, 0); (1, 0)] [(4, 4); (3, 4)] 3 4).
  apply Permutation_swap.
Defined.

End HashLaws.

Module SolverLaws.
Import Bitboard Pieces GameLogic Solver Spec CatalogFacts SolverFacts PieceLaws.

Lemma permutations_fuel_spec {A : Type} (n : nat) (arr l : list A) :
  (length arr ≤ n)%nat → l ∈ permutations_fuel n arr ↔ l ≡ₚ arr.
Proof.
  revert arr l. induction n as [|n IH]; intros arr l Hlen.
  - destruct arr; [|simpl in Hlen; lia]. cbn.
    rewrite list_elem_of_singleton. split; [by intros ->|by intros ?%Permutation_nil_r].
  - cbn [permutations_fuel]. destruct (length arr <=? 1)%nat eqn:E.
    { apply Nat.leb_le in E. rewrite list_elem_of_singleton.
      destruct arr as [|x [|y arr]]; [| |simpl in E; lia].
      - split; [by intros ->|by intros ?%Permutation_nil_r].
      - by rewrite Permutation_singleton_r. }
    apply Nat.leb_gt in E. rewrite list_elem_of_In, in_flat_map. split.
    + intros (i & Hi%in_seq & Hl). destruct (arr !! i) as [a|] eqn:Ea; [|done].
      apply in_map_iff in Hl as (perm & <- & Hperm%list_elem_of_In).
      apply IH in Hperm.
      2:{ rewrite length_app, length_take, length_drop. lia. }
      rewrite Hperm, <- delete_take_drop. symmetry. by apply delete_Permutation.
    + intros Hperm. destruct l as [|a perm].
      { apply Permutation_nil_l in Hperm. subst. simpl in E. lia. }
      assert (Ha : a ∈ arr) by (rewrite <- Hperm; by left).
      apply list_elem_of_lookup_1 in Ha as [i Hi]. exists i. split.
      * apply in_seq. apply lookup_lt_Some in Hi. lia.
      * rewrite Hi. apply in_map_iff. exists perm. split; [done|].
        apply list_elem_of_In, IH.
        -- rewrite length_app, length_take, length_drop.
           apply lookup_lt_Some in Hi. lia.
        -- rewrite <- delete_take_drop. apply (Permutation_cons_inv (a := a)).
           rewrite Hperm. by apply delete_Permutation.
Qed.

(** X16. [permutations] yields exactly the orderings of its array:
    a list is yielded if and only if it is a permutation of the array. *)
Theorem permutations_spec {A : Type} (arr l : list A) :
  l ∈ Solver.permutations arr ↔ l ≡ₚ arr.
Proof. unfold Solver.permutations. by apply permutations_fuel_spec. Qed.

Lemma pick_seqZ (l : list Z) : pick l (seqZ 0 (Z.of_nat (length l))) = l.
Proof.
  unfold pick. apply list_eq. intros i. change (map ?f ?l) with (f <$> l).
  rewrite list_lookup_fmap. destruct (l !! i) as [x|] eqn:E.
  - rewrite lookup_seqZ_lt by (apply lookup_lt_Some in E; lia).
    cbn [fmap option_fmap option_map]. unfold js_index.
    rewrite Z.add_0_l, Nat2Z.id, (proj2 (Z.leb_le 0 _)) by lia.
    by rewrite E.
  - rewrite lookup_seqZ_ge by (apply lookup_ge_None in E; lia). done.
Qed.

Lemma pick_perm (l o : list Z) :
  o ≡ₚ seqZ 0 (Z.of_nat (length l)) → pick l o ≡ₚ l.
Proof.
  intros Ho. rewrite <- (pick_seqZ l) at 2. unfold pick.
  change (map ?f ?l) with (f <$> l). by rewrite Ho.
Qed.

Lemma pick_complete (l l' : list Z) :
  l' ≡ₚ l → ∃ o, o ≡ₚ seqZ 0 (Z.of_nat (length l)) ∧ pick l o = l'.
Proof.
  intros (Hlen & f & Hinj & Hf)%Permutation_inj.
  exists ((λ i, Z.of_nat (f i)) <$> seq 0 (length l)). split.
  - assert (Hseq : seqZ 0 (Z.of_nat (length l)) = Z.of_nat <$> seq 0 (length l)).
    { unfold seqZ. rewrite Nat2Z.id. apply list_fmap_ext. intros; lia. }
    rewrite Hseq, (list_fmap_compose f Z.of_nat). apply fmap_Permutation.
    apply (@nat_bijection_Permutation (length l) f).
    + intros x Hx. rewrite <- Hlen in Hx. apply lookup_lt_is_Some in Hx as [v Hv].
      rewrite Hf in Hv. by apply lookup_lt_Some in Hv.
    + intros x y. apply Hinj.
  - unfold pick. apply list_eq. intros i. change (map ?f ?l) with (f <$> l).
    rewrite <- list_fmap_compose, list_lookup_fmap.
    destruct (l' !! i) as [x|] eqn:E.
    + rewrite lookup_seq_lt by (apply lookup_lt_Some in E; lia).
      cbn [fmap option_fmap option_map compose]. unfold js_index.
      rewrite (proj2 (Z.leb_le 0 _)) by lia.
      rewrite Nat2Z.id. cbn [Nat.add]. rewrite <- Hf, E. done.
    + rewrite lookup_seq_ge by (apply lookup_ge_None in E; lia). done.
Qed.

Section Catalog.
Variable rawPieces : list Piece.t.

(** The orderings [solvePartial] tries are exactly the orderings of the
    remaining pieces. *)
Lemma solvable_perms board (l : list Z) :
  solvable rawPieces board l
  ↔ ∃ o, o ∈ Solver.permutations (seqZ 0 (Z.of_nat (length l)))
         ∧ placeable_seq rawPieces board (pick l o).
Proof.
  unfold solvable. split.
  - intros (order & (o & Ho & <-)%pick_complete & Hseq).
    exists o. split; [by apply permutations_spec|done].
  - intros (o & Ho%permutations_spec & Hseq). exists (pick l o).
    split; [by apply pick_perm|done].
Qed.

Lemma solvePartial_loop_spec board remaining handIndices orders :
  solvePartial_loop rawPieces board remaining handIndices orders = None
  ↔ ∀ o, o ∈ orders → ¬ placeable_seq rawPieces board (pick remaining o).
Proof.
  induction orders as [|o orders IH]; cbn [solvePartial_loop].
  - split; [by intros _ ? ?%elem_of_nil|done].
  - unfold dfs. rewrite drop_0.
    pose proof (dfs_from_spec rawPieces board (pick remaining o)
                  (map (λ i, js_index handIndices i) o) 0 [] true) as Hspec.
    destruct (dfs_from _ _ _ _ _ _ _) as [steps|].
    + destruct Hspec as [Hseq _]. split; [done|]. intros H. exfalso.
      apply (H o); [by left|done].
    + rewrite IH. split.
      * intros H o' [->|?]%elem_of_cons; auto.
      * intros H o' ?. apply H. by right.
Qed.

(** X17. [solvePartial] never throws.  It returns [null] exactly when no
    ordering of the remaining pieces admits a complete legal placement
    sequence; with no remaining piece it returns the solution with no
    step whose final board is the board given. *)
Theorem solvePartial_spec (board : Z) (remainingPieces handIndices : list Z) :
  ∃ r, solvePartial rawPieces board remainingPieces handIndices = Ok r
       ∧ (r = None ↔ ¬ solvable rawPieces board remainingPieces)
       ∧ (remainingPieces = [] →
            r = Some (Solution.mk [] board (computeMobility rawPieces board) [])).
Proof.
  unfold solvePartial. destruct remainingPieces as [|a l].
  - cbn [length Nat.eqb]. eexists. split; [done|]. split; [|done].
    split; [done|]. intros H. exfalso. apply H. exists []. split; [done|constructor].
  - cbn [length Nat.eqb]. eexists. split; [done|]. split; [|done].
    rewrite solvePartial_loop_spec, solvable_perms. cbn [length]. split.
    + intros H (o & Ho & Hseq). by apply (H o).
    + intros H o Ho Hseq. apply H. eauto.
Qed.

Lemma legal_step_ok board pieceId handIndex p :
  p ∈ getLegalPlacements rawPieces board pieceId →
  step_ok rawPieces board
    (mkStep pieceId handIndex p (placePiece board (Placement.mask p))) = true.
Proof.
  intros (piece & Hp & Hcan & Hm)%elem_of_getLegalPlacements.
  unfold step_ok, mkStep. cbn [SolutionStep.pieceId SolutionStep.x SolutionStep.y
    SolutionStep.clearedRows SolutionStep.clearedCols SolutionStep.boardAfter].
  rewrite Hp, Hcan, <- Hm. by rewrite !bool_decide_eq_true_2.
Qed.

Lemma finalOf_cons board s steps :
  finalOf board (s :: steps) = finalOf (SolutionStep.boardAfter s) steps.
Proof.
  unfold finalOf. destruct steps as [|s' steps]; [done|].
  rewrite last_cons_cons. destruct (last (s' :: steps)) eqn:E; [done|].
  by apply last_None in E.
Qed.

Lemma dfs_from_steps board rest hi depth path ee res :
  dfs_from rawPieces board rest hi depth path ee = Some res →
  ∃ new, res = path ++ new
         ∧ replay rawPieces board new = Some (finalOf board new)
         ∧ map SolutionStep.pieceId new = rest
         ∧ map SolutionStep.handIndex new
           = map (λ k, hi !! k ≫= id) (seq depth (length rest)).
Proof.
  revert board depth path res.
  induction rest as [|pieceId rest IH]; intros board depth path res.
  - cbn. intros [= <-]. exists []. by rewrite app_nil_r.
  - rewrite dfs_from_cons. intros (p & Hp & Hres)%first_some_Some. cbn zeta in Hres.
    apply IH in Hres as (new & -> & Hreplay & Hids & Hidx).
    exists (mkStep pieceId (hi !! depth ≫= id) p (placePiece board (Placement.mask p))
            :: new).
    split; [by rewrite <- app_assoc|]. split; [|split].
    + cbn [replay]. rewrite legal_step_ok by done. by rewrite finalOf_cons.
    + cbn [map]. by rewrite Hids.
    + cbn [map length seq]. by rewrite Hidx.
Qed.

Lemma seq_lookup_map {A : Type} (g : Z → option A) (o : list Z) :
  map (λ k, (g <$> o) !! k ≫= id) (seq 0 (length o)) = map g o.
Proof.
  apply list_eq. intros i. change (map ?f ?l) with (f <$> l).
  rewrite !list_lookup_fmap. destruct (o !! i) as [x|] eqn:E.
  - rewrite lookup_seq_lt by (by apply lookup_lt_Some in E).
    cbn [fmap option_fmap option_map Nat.add]. by rewrite list_lookup_fmap, E.
  - rewrite lookup_seq_ge by (by apply lookup_ge_None in E). done.
Qed.

Lemma pick_length l o : length (pick l o) = length o.
Proof. unfold pick. apply length_map. Qed.

(** What a successful [dfs] from the top gives, for the slots [g] of an
    ordering [o]. *)
Lemma dfs_top board pieces (g : Z → option Z) o steps :
  o ≠ [] →
  dfs rawPieces board (pick pieces o) (map g o) 0 [] true = Some steps →
  ∃ s, last steps = Some s
       ∧ replay rawPieces board steps = Some (SolutionStep.boardAfter s)
       ∧ map SolutionStep.pieceId steps = pick pieces o
       ∧ map SolutionStep.handIndex steps = map g o.
Proof.
  intros Ho. unfold dfs. rewrite drop_0.
  intros (new & -> & Hreplay & Hids & Hidx)%dfs_from_steps. cbn [app] in *.
  rewrite pick_length in Hidx. change (map g o) with (g <$> o) in Hidx.
  rewrite seq_lookup_map in Hidx.
  destruct (last new) as [s|] eqn:Elast.
  - exists s. split; [done|]. split; [|done]. rewrite Hreplay. unfold finalOf.
    by rewrite Elast.
  - apply last_None in Elast. subst new. destruct o; [done|]. discriminate Hids.
Qed.

Lemma six_slots o :
  o ∈ Solver.permutations [0; 1; 2] →
  map Some o = map (λ i, js_index [0; 1; 2] i) o ∧ o ≡ₚ seqZ 0 3 ∧ o ≠ [].
Proof.
  intros Ho. split; [|split; [by apply permutations_spec in Ho|]].
  - rewrite permutations_3 in Ho. rewrite !elem_of_cons, elem_of_nil in Ho.
    by destruct Ho as [->|[->|[->|[->|[->|[->|[]]]]]]].
  - intros ->. by apply permutations_spec, Permutation_nil_l in Ho.
Qed.

Lemma solveTriple_loop_valid board hand orders sol :
  length hand = 3%nat →
  (∀ o, o ∈ orders → o ∈ Solver.permutations [0; 1; 2]) →
  solveTriple_loop rawPieces board hand orders = Ok (Some sol) →
  valid_solution rawPieces board hand [0; 1; 2] sol.
Proof.
  intros Hlen. induction orders as [|o orders IH]; intros Hsix; [done|].
  cbn [solveTriple_loop].
  destruct (six_slots o (Hsix o ltac:(by left))) as (Hslots & Hperm & Hne).
  destruct (dfs _ _ _ _ _ _ _) as [steps|] eqn:Edfs.
  - apply dfs_top in Edfs as (s & Hlast & Hreplay & Hids & Hidx); [|done].
    rewrite Hlast. intros [= <-]. split; [done|]. split; [done|].
    exists o. cbn [Solution.steps]. rewrite Hlen. split; [done|]. split; [done|].
    by rewrite Hidx.
  - apply IH. intros o' Ho'. apply Hsix. by right.
Qed.

Lemma solvePartial_loop_valid board remaining handIndices orders sol :
  (∀ o, o ∈ orders → o ≠ [] ∧ o ≡ₚ seqZ 0 (Z.of_nat (length remaining))) →
  solvePartial_loop rawPieces board remaining handIndices orders = Some sol →
  valid_solution rawPieces board remaining handIndices sol.
Proof.
  induction orders as [|o orders IH]; intros Hall; [done|].
  cbn [solvePartial_loop]. destruct (Hall o ltac:(by left)) as [Hne Hperm].
  destruct (dfs _ _ _ _ _ _ _) as [steps|] eqn:Edfs.
  - apply dfs_top in Edfs as (s & Hlast & Hreplay & Hids & Hidx); [|done].
    rewrite Hlast. intros [= <-]. split; [done|]. split; [done|]. by exists o.
  - apply IH. intros o' Ho'. apply Hall. by right.
Qed.

(** X18. A solution returned by the first-fit search can be redone: the
    steps of [solveTriple] (and of [solvePartial]) are legal placements made
    one after the other from the given board, they end on [finalBoard],
    [mobility] is the mobility of that board, and the steps place the
    pieces of the hand in some order, each step carrying the slot index
    of its piece. *)
Theorem first_fit_solution_valid (board : Z) (hand handIndices : list Z)
    (sol : Solution.t) :
  (length hand = 3%nat → solveTriple rawPieces board hand = Ok (Some sol) →
     valid_solution rawPieces board hand [0; 1; 2] sol
     ∧ length (Solution.steps sol) = 3%nat)
  ∧ (solvePartial rawPieces board hand handIndices = Ok (Some sol) →
       valid_solution rawPieces board hand handIndices sol
       ∧ length (Solution.steps sol) = length hand).
Proof.
  assert (Hlen : ∀ pieces slots, valid_solution rawPieces board pieces slots sol →
            length (Solution.steps sol) = length pieces).
  { intros pieces slots (_ & _ & o & Ho & Hids & _).
    apply (f_equal length) in Hids. rewrite length_map, pick_length in Hids.
    rewrite Hids. apply Permutation_length in Ho. rewrite Ho, length_seqZ. lia. }
  split.
  - intros H3 Hsolve. unfold solveTriple in Hsolve. rewrite H3 in Hsolve.
    cbn [Nat.eqb negb] in Hsolve.
    apply solveTriple_loop_valid in Hsolve; [|done..]. split; [done|].
    rewrite <- H3. by apply (Hlen hand [0; 1; 2]).
  - unfold solvePartial. destruct hand as [|a l].
    + cbn [length Nat.eqb]. intros [= <-]. split; [|done].
      split; [done|]. split; [done|]. by exists [].
    + cbn [length Nat.eqb]. intros [= Hloop].
      apply solvePartial_loop_valid in Hloop.
      * split; [done|]. by apply (Hlen (a :: l) handIndices).
      * intros o Ho%permutations_spec. cbn [length]. split; [|done].
        intros ->. apply Permutation_nil_l in Ho.
        apply (f_equal length) in Ho. rewrite length_seqZ in Ho. cbn in Ho. lia.
Qed.

Lemma enumerate_steps hand order hi board rest depth path sol :
  sol ∈ enumerate rawPieces hand order hi board rest depth path →
  ∃ new, Solution.steps sol = path ++ new
         ∧ replay rawPieces board new = Some (finalOf board new)
         ∧ map SolutionStep.pieceId new = rest
         ∧ map SolutionStep.handIndex new = map (λ k, hi !! k) (seq depth (length rest))
         ∧ SolutionStep.boardAfter <$> last (path ++ new) = Some (Solution.finalBoard sol)
         ∧ Solution.mobility sol = computeMobility rawPieces (Solution.finalBoard sol).
Proof.
  revert board depth path.
  induction rest as [|pieceId rest IH]; intros board depth path.
  - cbn [enumerate]. destruct (last path) as [s|] eqn:Elast; [|by intros ?%elem_of_nil].
    intros ->%list_elem_of_singleton. exists []. rewrite app_nil_r, Elast. done.
  - cbn [enumerate]. rewrite list_elem_of_In, in_flat_map.
    intros (p & Hp%list_elem_of_In & Hsol%list_elem_of_In). cbn zeta in Hsol.
    apply IH in Hsol as (new & Hsteps & Hreplay & Hids & Hidx & Hlast & Hmob).
    exists (mkStep pieceId (hi !! depth) p (placePiece board (Placement.mask p)) :: new).
    rewrite <- app_assoc in Hsteps, Hlast.
    split; [done|]. split; [|split; [|split]]; [| | |done].
    + cbn [replay]. rewrite legal_step_ok by done. by rewrite finalOf_cons.
    + cbn [map]. by rewrite Hids.
    + cbn [map length seq]. by rewrite Hidx.
Qed.

Lemma seq_lookup_Some (o : list Z) :
  map (λ k, o !! k) (seq 0 (length o)) = map Some o.
Proof.
  apply list_eq. intros i. change (map ?f ?l) with (f <$> l).
  rewrite !list_lookup_fmap. destruct (o !! i) as [x|] eqn:E.
  - rewrite lookup_seq_lt by (by apply lookup_lt_Some in E).
    cbn [fmap option_fmap option_map Nat.add]. by rewrite E.
  - rewrite lookup_seq_ge by (by apply lookup_ge_None in E). done.
Qed.

Lemma allSolutions_valid board hand sol :
  length hand = 3%nat → sol ∈ allSolutions rawPieces board hand →
  valid_solution rawPieces board hand [0; 1; 2] sol.
Proof.
  intros Hlen. unfold allSolutions. rewrite list_elem_of_In, in_flat_map.
  intros (o & Ho%list_elem_of_In & Hsol%list_elem_of_In). cbn zeta in Hsol.
  rewrite <- permutations_3 in Ho. destruct (six_slots o Ho) as (Hslots & Hperm & Hne).
  apply enumerate_steps in Hsol as (new & Hsteps & Hreplay & Hids & Hidx & Hlast & Hmob).
  cbn [app] in *. rewrite pick_length, seq_lookup_Some in Hidx. subst new.
  split; [|split; [done|]].
  - rewrite Hreplay. unfold finalOf. by rewrite Hlast.
  - exists o. rewrite Hlen. split; [done|]. split; [done|]. by rewrite Hidx.
Qed.

(** X19. Every solution [findAllSolutions] collects, and so the one
    [findBestSolution] returns, can be redone from the board and carries
    the slot index of each piece; [findAllSolutions] never returns more
    than [maxSolutions] solutions. *)
Theorem best_of_solutions_valid (board : Z) (hand : list Z) (maxSolutions : Z) :
  length hand = 3%nat →
  (∀ sols, findAllSolutions rawPieces board hand maxSolutions = Ok sols →
     Forall (valid_solution rawPieces board hand [0; 1; 2]) sols
     ∧ Z.of_nat (length sols) ≤ Z.max 0 maxSolutions)
  ∧ (∀ sol, findBestSolution rawPieces board hand maxSolutions = Ok (Some sol) →
       valid_solution rawPieces board hand [0; 1; 2] sol).
Proof.
  intros Hlen. pose proof (findAllSolutions_take rawPieces board hand maxSolutions Hlen) as Hall.
  assert (Hin : ∀ sol, sol ∈ take (Z.to_nat maxSolutions) (allSolutions rawPieces board hand) →
            valid_solution rawPieces board hand [0; 1; 2] sol).
  { intros sol Hsol. apply allSolutions_valid; [done|].
    apply list_elem_of_lookup in Hsol as [i Hi]. apply lookup_take_Some in Hi as [Hi _].
    by eapply list_elem_of_lookup_2. }
  split.
  - intros sols. rewrite Hall. intros [= <-]. split; [by apply Forall_forall|].
    rewrite length_take. lia.
  - intros sol. unfold findBestSolution. rewrite Hall. cbn [bindR].
    destruct (length _ =? 0)%nat; [done|]. intros [= Hhead]. apply Hin.
    rewrite <- (HashLaws.js_sort_Permutation
      (λ a b, Solution.mobility b - Solution.mobility a)).
    apply head_Some in Hhead as [l' ->]. by left.
Qed.

(** X20. Raising the cap only appends: what [findAllSolutions] returns
    under a cap is the first [maxSolutions] entries of what it returns
    under any larger cap. *)
Theorem findAllSolutions_cap_prefix (board : Z) (hand : list Z)
    (maxSolutions maxSolutions' : Z) (sols' : list Solution.t) :
  maxSolutions ≤ maxSolutions' →
  findAllSolutions rawPieces board hand maxSolutions' = Ok sols' →
  findAllSolutions rawPieces board hand maxSolutions
  = Ok (take (Z.to_nat maxSolutions) sols').
Proof.
  intros Hle. destruct (decide (length hand = 3%nat)) as [Hlen|Hlen].
  - rewrite !findAllSolutions_take by done. intros [= <-]. f_equal.
    rewrite take_take. f_equal. lia.
  - unfold findAllSolutions.
    rewrite (proj2 (negb_true_iff _) (proj2 (Nat.eqb_neq _ _) Hlen)). done.
Qed.

End Catalog.

Lemma best_of_solutions_valid_witness :
  ∃ sol, findBestSolution Examples.catalog 0 [1; 1; 2] DEFAULT_MAX_SOLUTIONS = Ok (Some sol)
         ∧ valid_solution Examples.catalog 0 [1; 1; 2] [0; 1; 2] sol.
Proof.
  destruct (findBestSolution Examples.catalog 0 [1; 1; 2] DEFAULT_MAX_SOLUTIONS)
    as [[sol|]|e] eqn:E; [|vm_compute in E; discriminate E|vm_compute in E; discriminate E].
  exists sol. split; [reflexivity|].
  destruct (best_of_solutions_valid Examples.catalog 0 [1; 1; 2] DEFAULT_MAX_SOLUTIONS)
    as [_ H]; [reflexivity|]. apply H. exact E.
Defined.

Lemma findAllSolutions_cap_prefix_witness :
  ∃ sols', findAllSolutions Examples.catalog 0 [1; 1; 2] 5 = Ok sols'
           ∧ findAllSolutions Examples.catalog 0 [1; 1; 2] 2 = Ok (take (Z.to_nat 2) sols').
Proof.
  destruct (findAllSolutions Examples.catalog 0 [1; 1; 2] 5) as [sols'|e] eqn:E;
    [|vm_compute in E; discriminate E].
  exists sols'. split; [reflexivity|].
  apply (findAllSolutions_cap_prefix Examples.catalog 0 [1; 1; 2] 2 5 sols'); [lia|exact E].
Defined.

Lemma first_fit_solution_valid_witness :
  ∃ sol, solveTriple Examples.catalog 0 [1; 1; 2] = Ok (Some sol)
         ∧ valid_solution Examples.catalog 0 [1; 1; 2] [0; 1; 2] sol
         ∧ length (Solution.steps sol) = 3%nat.
Proof.
  destruct (solveTriple Examples.catalog 0 [1; 1; 2]) as [[sol|]|e] eqn:E;
    [|vm_compute in E; discriminate E|vm_compute in E; discriminate E].
  exists sol. split; [reflexivity|].
  apply (first_fit_solution_valid Examples.catalog 0 [1; 1; 2] [] sol); [reflexivity|].
  exact E.
Defined.

End SolverLaws.
